(** * AbLM-Eval: per-position inference post-processing

    A shallow embedding of
    - [ablm_eval/tasks/per_position_inference/per_position_plot.py]
      ([_extract], [_region_processing], [_summary_df]) and
    - [ablm_eval/utils/load_model.py] ([load_model_and_tokenizer]),
    together with the properties of the chain splitter, the region segmenter,
    the region aggregator, the summary builder and the model loader.

    Modelling conventions.
    - A pandas data frame is the list of its rows; [iterrows] is a left-to-right
      traversal, and an exception raised while a row is processed ends the
      traversal with that exception.
    - Python exceptions are values of [py_error]; code that may raise returns
      a [result].
    - Python lists, numpy arrays and strings that are only sliced, zipped and
      measured are Rocq lists and strings; [a[:n]] is [take n a] and [a[n:]] is
      [drop n a] (indices are never negative here).
    - Floating-point numbers are idealised as exact rationals ([Q]); the value
      [nan] is [None]. Binary rounding of IEEE doubles is not modelled. *)

From Stdlib Require Import QArith Qround Qabs Lqa.
From Stdlib Require Import Ascii DecimalString.
From stdpp Require Import base list strings sorting.

Local Close Scope Q_scope.
Local Open Scope nat_scope.
Local Open Scope list_scope.

(** ** Exceptions *)

Inductive py_error : Type :=
| IndexError
| ValueError (msg : string)
| ExternalError (msg : string).

Inductive result (T : Type) : Type :=
| Ok (t : T)
| Err (e : py_error).

Arguments Ok {T} t.
Arguments Err {T} e.

#[global] Instance result_ret : MRet result := fun A a => Ok a.

#[global] Instance result_bind : MBind result := fun A B k m =>
  match m with
  | Ok a => k a
  | Err e => Err e
  end.

#[global] Instance result_fmap : FMap result := fun A B f m =>
  match m with
  | Ok a => Ok (f a)
  | Err e => Err e
  end.

(** [for x in xs: acc = body(acc, x)], where [body] may raise. *)
Fixpoint for_each {A S : Type} (body : S -> A -> result S) (xs : list A) (acc : S)
  : result S :=
  match xs with
  | [] => Ok acc
  | x :: rest => acc' ← body acc x; for_each body rest acc'
  end.

(** ** Python primitives *)

(** [enumerate(l)], counting from [i]. *)
Fixpoint enumerate_from {A : Type} (i : nat) (l : list A) : list (nat * A) :=
  match l with
  | [] => []
  | x :: rest => (i, x) :: enumerate_from (S i) rest
  end.

Definition enumerate {A : Type} (l : list A) : list (nat * A) := enumerate_from 0 l.

(** [a[start:end]] for [0 <= start], [0 <= end]. *)
Definition slice {A : Type} (start stop : nat) (a : list A) : list A :=
  drop start (take stop a).

(** [zip(xs, ys)] is [zip xs ys], which stops at the shorter argument. *)

(** [l[i]] for [0 <= i]: raises [IndexError] out of range. *)
Definition py_index {A : Type} (l : list A) (i : nat) : result A :=
  match l !! i with
  | Some x => Ok x
  | None => Err IndexError
  end.

(** [s.count(c)] for a one-character [c]. *)
Fixpoint str_count_char (c : ascii) (s : string) : nat :=
  match s with
  | EmptyString => 0
  | String a s' => (if decide (a = c) then 1 else 0) + str_count_char c s'
  end.

(** [sub in s]. *)
Fixpoint str_contains (sub s : string) : bool :=
  String.prefix sub s ||
  match s with
  | EmptyString => false
  | String _ s' => str_contains sub s'
  end.

(** The scan behind [s.split(sep)] for a non-empty [sep]: wherever [sep]
    matches, the part in progress [cur] is closed and the separator skipped
    ([skip] counts the characters of a matched separator still to pass);
    the matches found are the non-overlapping ones, leftmost first. *)
Fixpoint split_go (sep : string) (skip : nat) (cur : string) (s : string)
  : list string :=
  match s with
  | EmptyString => [cur]
  | String c s' =>
      match skip with
      | S k => split_go sep k cur s'
      | O =>
          if String.prefix sep s
          then cur :: split_go sep (String.length sep - 1) "" s'
          else split_go sep 0 (cur +:+ String c "") s'
      end
  end.

(** [s.split(sep)]: [ValueError] on an empty separator. *)
Definition str_split (sep s : string) : result (list string) :=
  if decide (sep = "") then Err (ValueError "empty separator")
  else Ok (split_go sep 0 "" s).

(** ** Numbers: numpy and pandas reductions over exact rationals *)

#[global] Instance Qle_dec : RelDecision Qle :=
  fun x y => decide (Qnum x * QDen y <= Qnum y * QDen x)%Z.

Definition Qsum (xs : list Q) : Q := foldr Qplus 0%Q xs.

Definition Qlen {A : Type} (xs : list A) : Q := inject_Z (Z.of_nat (length xs)).

(** [np.mean(xs)]: [nan] on an empty argument. *)
Definition np_mean (xs : list Q) : option Q :=
  match xs with
  | [] => None
  | _ => Some (Qsum xs / Qlen xs)%Q
  end.

(** [np.median(xs)]: the middle element of the sorted values, or the mean of
    the two middle elements; [nan] on an empty argument. *)
Definition np_median (xs : list Q) : option Q :=
  let sorted := merge_sort Qle xs in
  let n := length xs in
  if Nat.even n
  then match sorted !! (n / 2 - 1), sorted !! (n / 2) with
       | Some a, Some b => Some ((a + b) / 2)%Q
       | _, _ => None
       end
  else sorted !! (n / 2).

(** [np.mean] of a list of booleans: [True] counts 1 and [False] 0. *)
Definition Q_of_bool (b : bool) : Q := if b then 1%Q else 0%Q.

(** Python compares a predicted token (a [str]) with a residue, a
    one-character [str]. *)
Definition token_eqb (p : string) (t : ascii) : bool :=
  bool_decide (p = String t EmptyString).

(** ** Region segmenter (per_position_plot.py, lines 58-68) *)

Definition REGIONS : list string :=
  ["FR1"; "CDR1"; "FR2"; "CDR2"; "FR3"; "CDR3"; "FR4"]%string.

Section Segmenter.
Context {L : Type} `{EqDecision L}.

(** The three loop variables of the scan. *)
Record scan_state : Type := ScanState {
  mask_segments : list (nat * nat);
  prev_char : L;
  start_idx : nat
}.

(** One iteration of [for i, char in enumerate(cdr_mask)]. *)
Definition scan_step (st : scan_state) (ic : nat * L) : scan_state :=
  let '(i, char) := ic in
  if decide (char <> prev_char st)
  then {| mask_segments := mask_segments st ++ [(start_idx st, i)];
          prev_char := char;
          start_idx := i |}
  else {| mask_segments := mask_segments st;
          prev_char := char;
          start_idx := start_idx st |}.

(** Lines 59-68. [cdr_mask[0]] raises [IndexError] on an empty mask. *)
Definition find_regions (cdr_mask : list L) : result (list (nat * nat)) :=
  match cdr_mask with
  | [] => Err IndexError
  | c0 :: _ =>
      let st := fold_left scan_step (enumerate cdr_mask)
                          {| mask_segments := []; prev_char := c0; start_idx := 0 |} in
      Ok (mask_segments st ++ [(start_idx st, length cdr_mask)])
  end.

(** *** Specification side: maximal runs of a mask *)

(** Number of maximal runs of identical adjacent labels. *)
Fixpoint run_count (m : list L) : nat :=
  match m with
  | [] => 0
  | c :: rest =>
      match rest with
      | [] => 1
      | d :: _ => if decide (c = d) then run_count rest else S (run_count rest)
      end
  end.

(** The ranges still to be produced by the scan when it stands at index [i]
    with the run in progress started at [start] and last label [prev]. *)
Fixpoint runs_from (start i : nat) (prev : L) (rest : list L) : list (nat * nat) :=
  match rest with
  | [] => [(start, i)]
  | c :: rest' =>
      if decide (c <> prev)
      then (start, i) :: runs_from i (S i) c rest'
      else runs_from start (S i) c rest'
  end.

(** [chained a segs b]: the ranges tile [a, b) from left to right, each one
    non-empty and starting where the previous one ends. *)
Fixpoint chained (a : nat) (segs : list (nat * nat)) (b : nat) : Prop :=
  match segs with
  | [] => a = b
  | (s, e) :: rest => s = a /\ s < e /\ chained e rest b
  end.

(** Every range is a run of one label, and the label changes at the right end
    of every range that is not the last. With [chained] this makes each range a
    maximal run. *)
Definition constant_on (m : list L) (se : nat * nat) : Prop :=
  forall k, fst se <= k < snd se -> m !! k = m !! fst se.

Definition run_boundary (m : list L) (se : nat * nat) : Prop :=
  snd se < length m -> m !! (snd se - 1) <> m !! snd se.

Definition maximal_runs (m : list L) (segs : list (nat * nat)) : Prop :=
  Forall (constant_on m) segs /\ Forall (run_boundary m) segs.

(** The properties of a list of half-open ranges named by the specification. *)
Definition ranges_nonempty (segs : list (nat * nat)) : Prop :=
  Forall (fun se => fst se < snd se) segs.

Definition ranges_ascending_disjoint (segs : list (nat * nat)) : Prop :=
  forall i j a b, i < j -> segs !! i = Some a -> segs !! j = Some b ->
                  fst a < fst b /\ snd a <= fst b.

Definition ranges_cover (n : nat) (segs : list (nat * nat)) : Prop :=
  forall k, k < n <-> exists se, se ∈ segs /\ fst se <= k < snd se.

End Segmenter.

Arguments scan_state : clear implicits.

(** The mask of the specification's example, as a list of characters. *)
Definition example_mask : list ascii :=
  String.list_ascii_of_string "FFFCCCFFFCCCFFFCCCFFF".

(** ** Rows (the columns of the result table read by the code) *)

Record ResultRow {L : Type} : Type := {
  sequence : string;
  separator : string;
  loss : list Q;
  prediction : list string;
  cdr_mask_heavy : list L;
  cdr_mask_light : list L;
  v_mutation_count_aa_heavy : Z;
  v_mutation_count_aa_light : Z;
  model : string
}.

(** A row after [_extract]: the six columns it adds. *)
Record DerivedRow {L : Type} : Type := {
  row : @ResultRow L;
  heavy_loss : list Q;
  light_loss : list Q;
  heavy_pred : list string;
  light_pred : list string;
  heavy_sequence : string;
  light_sequence : string
}.

Arguments ResultRow : clear implicits.
Arguments DerivedRow : clear implicits.

Inductive chain_id : Type := heavy | light.

#[global] Instance chain_id_eq_dec : EqDecision chain_id.
Proof. solve_decision. Defined.

(** One entry of [data] in [_region_processing]. *)
Record RegionRecord : Type := {
  rr_region : string;
  rr_model : string;
  rr_chain : chain_id;
  rr_mutated : bool;
  rr_loss : list Q;
  rr_mean_loss : option Q;
  rr_median_loss : option Q;
  rr_accuracy : option Q
}.

(** ** Chain splitter: [_extract] (lines 14-41) *)

Section Pipeline.
Context {L : Type} `{EqDecision L}.

(** Lines 23-30: the four slices; slicing never raises. *)
Definition hlen_of (r : ResultRow L) : nat := length (cdr_mask_heavy r).
Definition seplen_of (r : ResultRow L) : nat := str_count_char "<" (separator r).

(** The body of the loop over rows, lines 23-32. *)
Definition extract_row (r : ResultRow L) : result (DerivedRow L) :=
  let hlen := hlen_of r in
  let sep := separator r in
  let seplen := seplen_of r in
  let h_loss := take hlen (loss r) in
  let l_loss := drop (hlen + seplen) (loss r) in
  let h_pred := take hlen (prediction r) in
  let l_pred := drop (hlen + seplen) (prediction r) in
  parts ← str_split sep (sequence r);
  h_seq ← py_index parts 0;
  parts' ← str_split sep (sequence r);
  l_seq ← py_index parts' 1;
  Ok {| row := r;
        heavy_loss := h_loss; light_loss := l_loss;
        heavy_pred := h_pred; light_pred := l_pred;
        heavy_sequence := h_seq; light_sequence := l_seq |}.

(** [_extract(df)]: the rows in order; the first row that raises ends the run. *)
Definition _extract (df : list (ResultRow L)) : result (list (DerivedRow L)) :=
  for_each (fun acc r => d ← extract_row r; Ok (acc ++ [d])) df [].

(** ** Region aggregator: [_region_processing] (lines 44-95) *)

Definition chain_loss (r : DerivedRow L) (chain : chain_id) : list Q :=
  match chain with heavy => heavy_loss r | light => light_loss r end.

Definition chain_pred (r : DerivedRow L) (chain : chain_id) : list string :=
  match chain with heavy => heavy_pred r | light => light_pred r end.

Definition chain_sequence (r : DerivedRow L) (chain : chain_id) : string :=
  match chain with heavy => heavy_sequence r | light => light_sequence r end.

Definition chain_mask (r : DerivedRow L) (chain : chain_id) : list L :=
  match chain with heavy => cdr_mask_heavy (row r) | light => cdr_mask_light (row r) end.

(** Line 48: [bool(a or b)] on two integers. *)
Definition mutated_of (r : DerivedRow L) : bool :=
  negb (v_mutation_count_aa_heavy (row r) =? 0)%Z
  || negb (v_mutation_count_aa_light (row r) =? 0)%Z.

(** Lines 89-91. *)
Definition region_accuracy (region_pred : list string) (region_seq : list ascii)
  : option Q :=
  np_mean (map (fun pt => Q_of_bool (token_eqb (fst pt) (snd pt)))
               (zip region_pred region_seq)).

(** Lines 76-93: the record of one region. *)
Definition region_record (model : string) (chain : chain_id) (mutated : bool)
    (loss : list Q) (pred : list string) (seq : list ascii)
    (rs : string * (nat * nat)) : RegionRecord :=
  let '(region, (start, stop)) := rs in
  let region_loss := slice start stop loss in
  let region_pred := slice start stop pred in
  let region_seq := slice start stop seq in
  {| rr_region := region;
     rr_model := model;
     rr_chain := chain;
     rr_mutated := mutated;
     rr_loss := region_loss;
     rr_mean_loss := np_mean region_loss;
     rr_median_loss := np_median region_loss;
     rr_accuracy := region_accuracy region_pred region_seq |}.

(** Lines 53-93: one chain of one row. The result lists the records appended
    to [data]; a chain whose mask does not give as many ranges as there are
    [REGIONS] appends nothing ([continue]). *)
Definition chain_records (model : string) (chain : chain_id) (mutated : bool)
    (loss : list Q) (pred : list string) (seq : list ascii) (cdr_mask : list L)
  : result (list RegionRecord) :=
  mask_segments ← find_regions cdr_mask;
  if decide (length mask_segments <> length REGIONS) then Ok []
  else Ok (map (region_record model chain mutated loss pred seq)
               (zip REGIONS mask_segments)).

Definition process_chain (r : DerivedRow L) (data : list RegionRecord)
    (chain : chain_id) : result (list RegionRecord) :=
  recs ← chain_records (model (row r)) chain (mutated_of r)
         (chain_loss r chain) (chain_pred r chain)
         (String.list_ascii_of_string (chain_sequence r chain))
         (chain_mask r chain);
  Ok (data ++ recs).

Definition process_row (data : list RegionRecord) (r : DerivedRow L)
  : result (list RegionRecord) :=
  for_each (process_chain r) [heavy; light] data.

Definition _region_processing (df : list (DerivedRow L)) : result (list RegionRecord) :=
  for_each process_row df [].

End Pipeline.

(** ** Summary builder: [_summary_df] (lines 158-182) *)

(** *** Rendering [f"{x:.4f}"] *)

Definition digits (n : Z) : string :=
  NilZero.string_of_uint (N.to_uint (Z.to_N n)).

Fixpoint zeros (n : nat) : string :=
  match n with
  | O => EmptyString
  | S k => String "0" (zeros k)
  end.

Definition pad_left (width : nat) (s : string) : string :=
  zeros (width - String.length s) +:+ s.

(** A number given by its sign and its magnitude in units of 1/10000. *)
Definition fixed4 (neg : bool) (k : Z) : string :=
  (if neg then "-" else "") +:+ digits (k / 10000) +:+ "." +:+
  pad_left 4 (digits (k mod 10000)).

(** Nearest integer, ties to the even one. *)
Definition round_half_even (x : Q) : Z :=
  let f := Qfloor x in
  match (x - inject_Z f ?= 1 # 2)%Q with
  | Lt => f
  | Gt => (f + 1)%Z
  | Eq => if Z.even f then f else (f + 1)%Z
  end.

(** Nearest integer to the square root of [x >= 0], ties to the even one:
    with [f] the integer part of the root, the root is below [f + 1/2] exactly
    when [x] is below [f^2 + f + 1/4]. *)
Definition round_root_half_even (x : Q) : Z :=
  let f := Z.sqrt (Qfloor x) in
  match (x ?= inject_Z (f * f + f) + (1 # 4))%Q with
  | Lt => f
  | Gt => (f + 1)%Z
  | Eq => if Z.even f then f else (f + 1)%Z
  end.

Definition Qnegative (x : Q) : bool :=
  match (x ?= 0)%Q with Lt => true | _ => false end.

(** [f"{x:.4f}"]; [nan] prints as "nan". *)
Definition fmt4 (x : option Q) : string :=
  match x with
  | None => "nan"
  | Some q => fixed4 (Qnegative q) (round_half_even (Qabs q * 10000))
  end.

(** [f"{y:.4f}"] for [y] the square root of [v >= 0]. *)
Definition fmt4_root (v : Q) : string :=
  fixed4 false (round_root_half_even (v * 100000000)).

(** *** pandas group reductions

    Both reductions skip [nan] entries. The standard error of the mean is
    irrational in general: the model carries its square, a rational, and
    renders its root with [fmt4_root]. *)

Definition dropna (vals : list (option Q)) : list Q := omap id vals.

(** [GroupBy.median]. *)
Definition group_median (vals : list (option Q)) : option Q :=
  np_median (dropna vals).

(** Sum of squared deviations from the mean. *)
Definition sum_sq_dev (xs : list Q) : Q :=
  let mean := (Qsum xs / Qlen xs)%Q in
  Qsum (map (fun x => (x - mean) * (x - mean))%Q xs).

(** Variance with [ddof] delta degrees of freedom: divisor [n - ddof]. *)
Definition variance (ddof : nat) (xs : list Q) : Q :=
  (sum_sq_dev xs / inject_Z (Z.of_nat (length xs - ddof)))%Q.

(** The square of [GroupBy.sem], called with pandas' default [ddof=1]:
    [std(ddof=1) / sqrt(count)], [nan] when the count is at most 1. *)
Definition group_sem_squared (vals : list (option Q)) : option Q :=
  let xs := dropna vals in
  if decide (length xs <= 1) then None
  else Some (variance 1 xs / Qlen xs)%Q.

(** Lines 167-170; [sem] is given by its square. *)
Definition format_value (mean : option Q) (sem_squared : option Q) : string :=
  match sem_squared with
  | Some v => fmt4 mean +:+ " (± " +:+ fmt4_root v +:+ ")"
  | None => fmt4 mean
  end.

(** One cell of [combined]: [means[col].combine(sems[col], format_value)]
    at one group, [vals] being the column's values in that group. *)
Definition summary_cell (vals : list (option Q)) : string :=
  format_value (group_median vals) (group_sem_squared vals).

(** *** The table *)

Record SummaryRecord : Type := {
  sr_model : string;
  sr_mutated : bool;
  CDRH3_median_loss : string;
  CDRH3_accuracy : string
}.

Definition group_key (r : RegionRecord) : string * bool := (rr_model r, rr_mutated r).

(** Ascending order on [(model, mutated)], [False] before [True]. *)
Definition key_le (a b : string * bool) : Prop :=
  if decide (a.1 = b.1) then bool_le a.2 b.2 else String.le a.1 b.1.

#[global] Instance key_le_dec : RelDecision key_le.
Proof. intros a b. unfold key_le. destruct (decide (a.1 = b.1)); apply _. Defined.

(** Line 160. *)
Definition is_heavy_cdr3 (r : RegionRecord) : Prop :=
  rr_region r = "CDR3" /\ rr_chain r = heavy.

#[global] Instance is_heavy_cdr3_dec r : Decision (is_heavy_cdr3 r).
Proof. unfold is_heavy_cdr3. apply _. Defined.

Definition group_of (key : string * bool) (df : list RegionRecord) : list RegionRecord :=
  filter (fun r => group_key r = key) df.

Definition _summary_df (df : list RegionRecord) : list SummaryRecord :=
  let cdr3_df := filter is_heavy_cdr3 df in
  let keys := merge_sort key_le (remove_dups (map group_key cdr3_df)) in
  map (fun key =>
         let g := group_of key cdr3_df in
         {| sr_model := key.1;
            sr_mutated := key.2;
            CDRH3_median_loss := summary_cell (map rr_median_loss g);
            CDRH3_accuracy := summary_cell (map rr_accuracy g) |})
      keys.

(** *** The cell as the specification words it

    The specification takes the population standard deviation (divisor [n])
    and leaves the error undefined for a group of at most one value. *)
Definition population_sem_squared (vals : list (option Q)) : option Q :=
  let xs := dropna vals in
  if decide (length xs <= 1) then None
  else Some (variance 0 xs / Qlen xs)%Q.

Definition population_cell (vals : list (option Q)) : string :=
  format_value (group_median vals) (population_sem_squared vals).

(** *** The cell with the sample standard deviation

    What a cell holds for a group whose column has the values [vals], [xs]
    being those that are not [nan] and [n] their number: the bare median when
    [n <= 1]; otherwise the median followed by the rendering of the root of
    [sum_sq_dev xs / (n - 1) / n], the squared sample standard deviation over
    [n]; and "± 0.0000" when the values are all the same. *)
Definition cell_spec (vals : list (option Q)) (cell : string) : Prop :=
  let xs := dropna vals in
  let n := length xs in
  (n <= 1 -> cell = fmt4 (group_median vals) /\ str_contains "±" cell = false) /\
  (2 <= n ->
   cell = fmt4 (group_median vals) +:+ " (± " +:+
          fmt4_root (sum_sq_dev xs / inject_Z (Z.of_nat (n - 1))
                     / inject_Z (Z.of_nat n)) +:+ ")") /\
  (2 <= n -> forall x, Forall (fun y => y == x)%Q xs ->
   cell = fmt4 (Some x) +:+ " (± 0.0000)").

(** Two heavy-chain CDR3 records of one model, with median losses 0 and 2. *)
Definition cdr3_record (median_loss accuracy : Q) : RegionRecord :=
  {| rr_region := "CDR3";
     rr_model := "balm";
     rr_chain := heavy;
     rr_mutated := false;
     rr_loss := [median_loss];
     rr_mean_loss := Some median_loss;
     rr_median_loss := Some median_loss;
     rr_accuracy := Some accuracy |}.

Definition two_records : list RegionRecord :=
  [cdr3_record 0 (1 # 2); cdr3_record 2 (1 # 2)].

(** The row of the summary for these two records. *)
Definition cdr3_summary_row : SummaryRecord :=
  {| sr_model := "balm";
     sr_mutated := false;
     CDRH3_median_loss := "1.0000 (± 1.0000)";
     CDRH3_accuracy := "0.5000 (± 0.0000)" |}.

(** ** Model loader: [load_model_and_tokenizer] (load_model.py, lines 11-39) *)

(** What the loader uses of the [transformers] library: the three
    [from_pretrained] class methods, each of which may return or raise. *)
Record Transformers : Type := {
  Model : Type;
  Tokenizer : Type;
  Kwargs : Type;
  AutoTokenizer_from_pretrained : string -> result Tokenizer;
  AutoModelForMaskedLM_from_pretrained : string -> Kwargs -> result Model;
  AutoModelForSequenceClassification_from_pretrained :
    string -> Kwargs -> result Model
}.

(** [a or b] for [a : str | None]: [None] and the empty string are falsy. *)
Definition py_or (a : option string) (b : string) : string :=
  match a with
  | Some s => if decide (s = "") then b else s
  | None => b
  end.

Definition load_model_and_tokenizer (T : Transformers) (model_path task : string)
    (tokenizer_path : option string) (kwargs : Kwargs T)
  : result (Model T * Tokenizer T) :=
  tokenizer ← AutoTokenizer_from_pretrained T (py_or tokenizer_path model_path);
  model ← (if decide (task = "mlm")
           then AutoModelForMaskedLM_from_pretrained T model_path kwargs
           else if decide (task = "classification")
           then AutoModelForSequenceClassification_from_pretrained T model_path kwargs
           else Err (ValueError ("Unsupported task: " +:+ task)));
  Ok (model, tokenizer).

(** A library whose three loaders always succeed, to run the model loader on. *)
Definition toy_transformers : Transformers :=
  {| Model := string;
     Tokenizer := string;
     Kwargs := unit;
     AutoTokenizer_from_pretrained := fun path => Ok ("tokenizer of " +:+ path);
     AutoModelForMaskedLM_from_pretrained := fun path _ => Ok ("mlm model of " +:+ path);
     AutoModelForSequenceClassification_from_pretrained :=
       fun path _ => Ok ("classifier of " +:+ path) |}.
(** ** Vocabulary of the specification for the sequence column *)

(** [sep] occurs in [s]. *)
Definition occurs (sep s : string) : Prop :=
  exists a b, s = a +:+ sep +:+ b.

(** [s] is [h], then the leftmost occurrence of [sep], then [t]. *)
Definition first_occurrence (sep s h t : string) : Prop :=
  s = h +:+ sep +:+ t /\
  forall h' t', s = h' +:+ sep +:+ t' -> String.length h <= String.length h'.

(** [s] is [h] and [l] joined by [sep], and [sep] occurs nowhere else in [s]. *)
Definition joined_once (sep s h l : string) : Prop :=
  s = h +:+ sep +:+ l /\
  forall h' l', s = h' +:+ sep +:+ l' -> h' = h.

(** [s.find(sub)], with [None] for -1. *)
Fixpoint str_find (sub s : string) : option nat :=
  if String.prefix sub s then Some 0
  else match s with
       | EmptyString => None
       | String _ s' => S <$> str_find sub s'
       end.

(** [s] splits on [sep] into exactly the two parts [h] and [l]. *)
Definition split_in_two (sep s h l : string) : Prop :=
  first_occurrence sep s h l /\ ~ occurs sep l.

(** The row [_extract] builds when the sequence column splits into [h_seq]
    and [l_seq]. *)
Definition derived_row {L : Type} (r : ResultRow L) (h_seq l_seq : string)
  : DerivedRow L :=
  let hlen := length (cdr_mask_heavy r) in
  let seplen := str_count_char "<" (separator r) in
  {| row := r;
     heavy_loss := slice 0 hlen (loss r);
     light_loss := drop (hlen + seplen) (loss r);
     heavy_pred := slice 0 hlen (prediction r);
     light_pred := drop (hlen + seplen) (prediction r);
     heavy_sequence := h_seq;
     light_sequence := l_seq |}.

(** A row of the shape of the specification's example: a heavy mask of 10
    labels, the separator "<cls>", 25 loss values and 25 predictions. Both
    masks have 7 runs. *)
Definition example_row : ResultRow ascii :=
  {| sequence := "QVQLVQSGAE<cls>DIQMTQSPSSLSAS";
     separator := "<cls>";
     loss := map (fun i => inject_Z (Z.of_nat i)) (seq 0 25);
     prediction := replicate 25 "A"%string;
     cdr_mask_heavy := String.list_ascii_of_string "FFCFFCCFCF";
     cdr_mask_light := String.list_ascii_of_string "FFCCFFCCFFCCFF";
     v_mutation_count_aa_heavy := 0;
     v_mutation_count_aa_light := 2;
     model := "balm" |}.

(** The same row with arrays that end before the light chain starts. *)
Definition short_row : ResultRow ascii :=
  {| sequence := sequence example_row;
     separator := separator example_row;
     loss := take 11 (loss example_row);
     prediction := take 3 (prediction example_row);
     cdr_mask_heavy := cdr_mask_heavy example_row;
     cdr_mask_light := cdr_mask_light example_row;
     v_mutation_count_aa_heavy := 0;
     v_mutation_count_aa_light := 2;
     model := "balm" |}.

(** The same row with a sequence that lacks the separator, and with one that
    holds it twice. *)
Definition no_sep_row : ResultRow ascii :=
  {| sequence := "QVQLVQSGAEDIQMTQSPSSLSAS";
     separator := separator example_row;
     loss := loss example_row;
     prediction := prediction example_row;
     cdr_mask_heavy := cdr_mask_heavy example_row;
     cdr_mask_light := cdr_mask_light example_row;
     v_mutation_count_aa_heavy := 0;
     v_mutation_count_aa_light := 2;
     model := "balm" |}.

Definition two_sep_row : ResultRow ascii :=
  {| sequence := "QVQLVQSGAE<cls>DIQMTQSPSSLSAS<cls>EVK";
     separator := separator example_row;
     loss := loss example_row;
     prediction := prediction example_row;
     cdr_mask_heavy := cdr_mask_heavy example_row;
     cdr_mask_light := cdr_mask_light example_row;
     v_mutation_count_aa_heavy := 0;
     v_mutation_count_aa_light := 2;
     model := "balm" |}.

(** ** Vocabulary of the specification for the accuracy *)

(** Number of positions at which the predicted token is the true residue. *)
Fixpoint match_count (ps : list string) (ts : list ascii) : nat :=
  match ps, ts with
  | p :: ps', t :: ts' =>
      (if decide (p = String t EmptyString) then 1 else 0) + match_count ps' ts'
  | _, _ => 0
  end.

Definition Q_of_nat (n : nat) : Q := inject_Z (Z.of_nat n).

(** The example row with a light mask of no label at all (and no light
    residues), as for a sequence without a light chain. *)
Definition empty_light_row : ResultRow ascii :=
  {| sequence := "QVQLVQSGAE<cls>";
     separator := separator example_row;
     loss := take 11 (loss example_row);
     prediction := take 11 (prediction example_row);
     cdr_mask_heavy := cdr_mask_heavy example_row;
     cdr_mask_light := [];
     v_mutation_count_aa_heavy := 0;
     v_mutation_count_aa_light := 0;
     model := "balm" |}.


(** ** Further vocabulary *)

(** [sep.join(parts)]. *)
Fixpoint str_join (sep : string) (parts : list string) : string :=
  match parts with
  | [] => EmptyString
  | p :: rest =>
      match rest with
      | [] => p
      | _ :: _ => p +:+ sep +:+ str_join sep rest
      end
  end.

(** A row the splitter accepts: its separator is not empty and occurs in its
    sequence. *)
Definition splittable {L : Type} (r : ResultRow L) : Prop :=
  separator r <> "" /\ occurs (separator r) (sequence r).

(** A row with an empty separator. *)
Definition empty_sep_row : ResultRow ascii :=
  {| sequence := sequence example_row;
     separator := "";
     loss := loss example_row;
     prediction := prediction example_row;
     cdr_mask_heavy := cdr_mask_heavy example_row;
     cdr_mask_light := cdr_mask_light example_row;
     v_mutation_count_aa_heavy := 0;
     v_mutation_count_aa_light := 2;
     model := "balm" |}.

Section AggregatorVocabulary.
Context {L : Type} `{EqDecision L}.

(** Both masks of a row hold at least one label. *)
Definition masks_nonempty (r : DerivedRow L) : Prop :=
  cdr_mask_heavy (row r) <> [] /\ cdr_mask_light (row r) <> [].

(** The records of one chain of a row, none when the chain is not accepted. *)
Definition chain_output (r : DerivedRow L) (chain : chain_id) : list RegionRecord :=
  match chain_records (model (row r)) chain (mutated_of r)
          (chain_loss r chain) (chain_pred r chain)
          (String.list_ascii_of_string (chain_sequence r chain))
          (chain_mask r chain) with
  | Ok recs => recs
  | Err _ => []
  end.

(** The records of a row: those of its heavy chain, then those of its light
    chain. *)
Definition row_records (r : DerivedRow L) : list RegionRecord :=
  chain_output r heavy ++ chain_output r light.

(** Number of chains of the batch whose mask has exactly 7 runs. *)
Definition accepted_chains (df : list (DerivedRow L)) : nat :=
  sum_list (map (fun r =>
                   (if decide (run_count (cdr_mask_heavy (row r)) = 7) then 1 else 0)
                   + (if decide (run_count (cdr_mask_light (row r)) = 7) then 1 else 0))
                df).

End AggregatorVocabulary.

(** The example row and the row without a light chain, after the splitter. *)
Definition example_derived : DerivedRow ascii :=
  derived_row example_row "QVQLVQSGAE" "DIQMTQSPSSLSAS".

Definition empty_light_derived : DerivedRow ascii :=
  derived_row empty_light_row "QVQLVQSGAE" "".

(** The records of the example row: 7 for each of its two chains. *)
Definition example_records : list RegionRecord := row_records example_derived.

(** The (model, mutated) pairs of the rows of a summary, in order. *)
Definition summary_keys (table : list SummaryRecord) : list (string * bool) :=
  map (fun sr => (sr_model sr, sr_mutated sr)) table.

(** What [_summary_df] reads of a record. *)
Definition summary_view (r : RegionRecord)
  : string * bool * option Q * option Q :=
  (rr_model r, rr_mutated r, rr_median_loss r, rr_accuracy r).

(** A batch of records of several regions, chains and models. *)
Definition mixed_records : list RegionRecord :=
  [ {| rr_region := "CDR3"; rr_model := "esm"; rr_chain := heavy; rr_mutated := true;
       rr_loss := [3 # 1]; rr_mean_loss := Some (3 # 1);
       rr_median_loss := Some (3 # 1); rr_accuracy := Some 1 |};
    {| rr_region := "FR1"; rr_model := "esm"; rr_chain := heavy; rr_mutated := true;
       rr_loss := [1 # 1]; rr_mean_loss := Some (1 # 1);
       rr_median_loss := Some (1 # 1); rr_accuracy := Some 0 |};
    {| rr_region := "CDR3"; rr_model := "balm"; rr_chain := light; rr_mutated := false;
       rr_loss := [5 # 1]; rr_mean_loss := Some (5 # 1);
       rr_median_loss := Some (5 # 1); rr_accuracy := Some 0 |};
    {| rr_region := "CDR3"; rr_model := "balm"; rr_chain := heavy; rr_mutated := true;
       rr_loss := [2 # 1]; rr_mean_loss := Some (2 # 1);
       rr_median_loss := Some (2 # 1); rr_accuracy := Some 1 |};
    {| rr_region := "CDR3"; rr_model := "balm"; rr_chain := heavy; rr_mutated := false;
       rr_loss := [4 # 1]; rr_mean_loss := Some (4 # 1);
       rr_median_loss := Some (4 # 1); rr_accuracy := Some (1 # 2) |} ]%Q.

(** A library whose tokenizer loader raises and whose model loaders return. *)
Definition broken_tokenizer_transformers : Transformers :=
  {| Model := string;
     Tokenizer := string;
     Kwargs := unit;
     AutoTokenizer_from_pretrained :=
       fun path => Err (ExternalError ("no tokenizer at " +:+ path));
     AutoModelForMaskedLM_from_pretrained := fun path _ => Ok ("mlm model of " +:+ path);
     AutoModelForSequenceClassification_from_pretrained :=
       fun path _ => Ok ("classifier of " +:+ path) |}.

(** ** Task configuration: [BaseTaskConfig.name] (config.py, lines 22-25)

    [str.replace] is taken for one-character arguments and [str.title] for
    ASCII text, where the cased characters are the 52 letters: a letter that
    follows a letter is lowered, any other letter is raised, and the rest is
    kept. *)

Definition is_upper (c : ascii) : bool :=
  (65 <=? nat_of_ascii c) && (nat_of_ascii c <=? 90).

Definition is_lower (c : ascii) : bool :=
  (97 <=? nat_of_ascii c) && (nat_of_ascii c <=? 122).

Definition to_upper (c : ascii) : ascii :=
  if is_lower c then ascii_of_nat (nat_of_ascii c - 32) else c.

Definition to_lower (c : ascii) : ascii :=
  if is_upper c then ascii_of_nat (nat_of_ascii c + 32) else c.

(** [s.replace(old, new)] for one-character [old] and [new]. *)
Fixpoint str_replace_char (old new : ascii) (s : string) : string :=
  match s with
  | EmptyString => EmptyString
  | String c s' =>
      String (if decide (c = old) then new else c) (str_replace_char old new s')
  end.

(** The scan of [s.title()]; [prev_cased] tells whether the previous character
    was a letter. *)
Fixpoint title_go (prev_cased : bool) (s : string) : string :=
  match s with
  | EmptyString => EmptyString
  | String c s' =>
      if is_lower c
      then String (if prev_cased then c else to_upper c) (title_go true s')
      else if is_upper c
      then String (if prev_cased then to_lower c else c) (title_go true s')
      else String c (title_go false s')
  end.

Definition str_title (s : string) : string := title_go false s.

(** The [name] property, as a function of the [task_dir] property. *)
Definition name (task_dir : string) : string :=
  str_title (str_replace_char "_" " " task_dir).

(** All characters are ASCII (below 128). *)
Fixpoint is_ascii_text (s : string) : bool :=
  match s with
  | EmptyString => true
  | String c s' => (nat_of_ascii c <? 128) && is_ascii_text s'
  end.

(** ** The processing stage of [per_pos_compare] (lines 191-192)

    [results = _extract(results)] and then [data = _region_processing(results)],
    on the concatenated rows of the result files. *)
Definition process_results {L : Type} `{EqDecision L} (results : list (ResultRow L))
  : result (list RegionRecord) :=
  derived ← _extract results;
  _region_processing derived.

(** A row that passes both stages: it can be split and none of its masks is
    empty. *)
Definition processable {L : Type} (r : ResultRow L) : Prop :=
  splittable r /\ cdr_mask_heavy r <> [] /\ cdr_mask_light r <> [].

(** * Properties *)

Section SegmenterProps.
Context {L : Type} `{EqDecision L}.

Lemma fold_scan_runs (rest : list L) : forall i (st : scan_state L),
  let st' := fold_left scan_step (enumerate_from i rest) st in
  mask_segments st' ++ [(start_idx st', i + length rest)]
  = mask_segments st ++ runs_from (start_idx st) i (prev_char st) rest.
Proof.
  induction rest as [|c rest IH]; intros i st; cbn [enumerate_from fold_left length runs_from].
  - by rewrite Nat.add_0_r.
  - replace (i + S (length rest)) with (S i + length rest) by lia.
    rewrite (IH (S i) (scan_step st (i, c))). unfold scan_step.
    destruct (decide (c <> prev_char st)); cbn [mask_segments start_idx prev_char]; [|done].
    by rewrite <- app_assoc.
Qed.

Lemma find_regions_runs (c0 : L) (rest : list L) :
  find_regions (c0 :: rest) = Ok (runs_from 0 1 c0 rest).
Proof.
  unfold find_regions, enumerate. cbn [enumerate_from fold_left length].
  f_equal. change (S (length rest)) with (1 + length rest).
  rewrite fold_scan_runs. unfold scan_step. cbn [prev_char].
  destruct (decide (c0 <> c0)); [congruence | done].
Qed.

Lemma runs_from_length (rest : list L) : forall start i prev,
  length (runs_from start i prev rest) = run_count (prev :: rest).
Proof.
  induction rest as [|c rest IH]; intros start i prev; [done|].
  cbn [runs_from]. change (run_count (prev :: c :: rest))
    with (if decide (prev = c) then run_count (c :: rest) else S (run_count (c :: rest))).
  destruct (decide (c <> prev)) as [Hne|Heq]; simpl length; rewrite IH.
  - destruct (decide (prev = c)); [congruence | done].
  - destruct (decide (prev = c)); [done | ]. exfalso. apply Heq. congruence.
Qed.

Lemma runs_from_chained (rest : list L) : forall start i (prev : L),
  start < i -> chained start (runs_from start i prev rest) (i + length rest).
Proof.
  induction rest as [|c rest IH]; intros start i prev Hlt; simpl.
  - repeat split; lia.
  - replace (i + S (length rest)) with (S i + length rest) by lia.
    destruct (decide (c <> prev)); simpl.
    + repeat split; [lia|]. apply IH. lia.
    + apply IH. lia.
Qed.


Lemma chained_le segs : forall a b, chained a segs b -> a <= b.
Proof.
  induction segs as [|[s e] segs IH]; intros a b Hc; simpl in Hc; [lia|].
  destruct Hc as (-> & Hlt & Hc). apply IH in Hc. lia.
Qed.

Lemma chained_nonempty segs : forall a b, chained a segs b -> ranges_nonempty segs.
Proof.
  induction segs as [|[s e] segs IH]; intros a b Hc; [constructor|].
  destruct Hc as (-> & Hlt & Hc). constructor; [done | by eapply IH].
Qed.

Lemma chained_after segs : forall a b se,
  chained a segs b -> se ∈ segs -> a <= fst se /\ snd se <= b.
Proof.
  induction segs as [|[s e] segs IH]; intros a b se Hc Hin.
  - by apply elem_of_nil in Hin.
  - destruct Hc as (-> & Hlt & Hc). apply elem_of_cons in Hin as [->|Hin]; simpl.
    + apply chained_le in Hc. lia.
    + destruct (IH _ _ _ Hc Hin). lia.
Qed.

Lemma chained_ascending segs : forall a b,
  chained a segs b -> ranges_ascending_disjoint segs.
Proof.
  induction segs as [|[s e] segs IH]; intros a b Hc i j x y Hij Hi Hj.
  - by rewrite lookup_nil in Hi.
  - destruct Hc as (-> & Hlt & Hc). destruct j as [|j]; [lia|].
    simpl in Hj. destruct i as [|i].
    + injection Hi as <-. simpl.
      assert (y ∈ segs) as Hy by (by eapply list_elem_of_lookup_2).
      destruct (chained_after _ _ _ _ Hc Hy). lia.
    + simpl in Hi. eapply (IH _ _ Hc i j); [lia|done..].
Qed.

Lemma chained_cover segs : forall a b k,
  chained a segs b -> (a <= k < b <-> exists se, se ∈ segs /\ fst se <= k < snd se).
Proof.
  induction segs as [|[s e] segs IH]; intros a b k Hc.
  - simpl in Hc. subst b. split; [lia|]. intros (se & Hin & _). by apply elem_of_nil in Hin.
  - destruct Hc as (-> & Hlt & Hc). split.
    + intros Hk. destruct (decide (k < e)).
      * exists (a, e). split; [left | simpl; lia].
      * destruct (proj1 (IH e b k Hc)) as (se & Hin & Hse); [lia|].
        exists se. split; [by right | done].
    + intros (se & Hin & Hse). apply elem_of_cons in Hin as [->|Hin].
      * simpl in Hse. apply chained_le in Hc. lia.
      * assert (e <= k < b) by (apply (IH e b k Hc); eauto). lia.
Qed.

Lemma runs_from_maximal (m rest : list L) : forall start i prev,
  start < i -> drop i m = rest ->
  (forall k, start <= k < i -> m !! k = Some prev) ->
  maximal_runs m (runs_from start i prev rest).
Proof.
  induction rest as [|c rest IH]; intros start i prev Hlt Hdrop Hprev;
    cbn [runs_from].
  - split; repeat constructor.
    + intros k Hk. simpl in *. by rewrite !Hprev by lia.
    + intros Hsnd. simpl in Hsnd. apply drop_nil_inv in Hdrop. lia.
  - assert (m !! i = Some c) as Hi.
    { rewrite <- (Nat.add_0_r i), <- lookup_drop, Hdrop. done. }
    assert (drop (S i) m = rest) as Hrest.
    { rewrite (drop_S _ _ _ Hi) in Hdrop. congruence. }
    destruct (decide (c <> prev)) as [Hne|Heq].
    + destruct (IH i (S i) c) as [Hc Hb]; [lia | done | |].
      { intros k Hk. by replace k with i by lia. }
      split; constructor; try done.
      * intros k Hk. simpl in *. by rewrite !Hprev by lia.
      * intros _. simpl. rewrite Hi, Hprev by lia. congruence.
    + assert (c = prev) as -> by (destruct (decide (c = prev)); [done | contradiction]).
      apply IH; [lia | done |].
      intros k Hk. destruct (decide (k = i)) as [->|]; [done|]. apply Hprev. lia.
Qed.

(** The scan of a non-empty mask yields as many ranges as the mask has maximal
    runs; they tile the index span and each one is a maximal run. *)
Lemma find_regions_spec (cdr_mask : list L) :
  cdr_mask <> [] ->
  exists segs,
    find_regions cdr_mask = Ok segs /\
    length segs = run_count cdr_mask /\
    chained 0 segs (length cdr_mask) /\
    maximal_runs cdr_mask segs.
Proof.
  destruct cdr_mask as [|c0 rest]; [done|]. intros _.
  exists (runs_from 0 1 c0 rest). split; [apply find_regions_runs|].
  split; [|split].
  - rewrite runs_from_length. simpl. destruct rest; [done|].
    destruct (decide (c0 = c0)); [|done].
    change (run_count (c0 :: l :: rest))
      with (if decide (c0 = l) then run_count (l :: rest) else S (run_count (l :: rest))).
    done.
  - apply (runs_from_chained rest 0 1 c0). lia.
  - apply runs_from_maximal; [lia | done |].
    intros k Hk. by replace k with 0 by lia.
Qed.

(** C1. A mask made of exactly 7 maximal runs of identical adjacent labels is
    segmented into exactly 7 half-open ranges; each range is non-empty, the
    ranges are in ascending order and pairwise non-overlapping, their union is
    the whole index span [0, len(mask)), and each range is one maximal run. *)
Theorem segmenter_seven_runs (cdr_mask : list L) :
  run_count cdr_mask = 7 ->
  exists segs,
    find_regions cdr_mask = Ok segs /\
    length segs = 7 /\
    ranges_nonempty segs /\
    ranges_ascending_disjoint segs /\
    ranges_cover (length cdr_mask) segs /\
    maximal_runs cdr_mask segs.
Proof.
  intros Hrc.
  destruct (find_regions_spec cdr_mask) as (segs & Hfind & Hlen & Hch & Hmax).
  { intros ->. discriminate Hrc. }
  exists segs. split; [done|]. split; [congruence|].
  split; [by eapply chained_nonempty|].
  split; [by eapply chained_ascending|].
  split; [|done].
  intros k. rewrite <- (chained_cover _ _ _ k Hch). lia.
Qed.

End SegmenterProps.


Lemma segmenter_seven_runs_witness :
  run_count example_mask = 7 /\
  exists segs,
    find_regions example_mask = Ok segs /\
    length segs = 7 /\
    ranges_nonempty segs /\
    ranges_ascending_disjoint segs /\
    ranges_cover (length example_mask) segs /\
    maximal_runs example_mask segs.
Proof.
  split; [reflexivity | apply (segmenter_seven_runs example_mask); reflexivity].
Defined.

(** ** Strings *)

Lemma str_app_cons (c : ascii) (a b : string) :
  String c a +:+ b = String c (a +:+ b).
Proof. reflexivity. Qed.

Lemma str_app_nil_l (s : string) : "" +:+ s = s.
Proof. reflexivity. Qed.

Lemma str_app_nil_r (s : string) : s +:+ "" = s.
Proof. induction s as [|c s IH]; [done | rewrite str_app_cons; by f_equal]. Qed.

Lemma str_app_assoc (a b c : string) : (a +:+ b) +:+ c = a +:+ b +:+ c.
Proof. induction a as [|x a IH]; [done | rewrite !str_app_cons; by f_equal]. Qed.

Lemma str_length_app (a b : string) :
  String.length (a +:+ b) = String.length a + String.length b.
Proof. induction a as [|x a IH]; [done | rewrite str_app_cons; simpl; by f_equal]. Qed.

Lemma prefix_app (p t : string) : String.prefix p (p +:+ t) = true.
Proof.
  induction p as [|c p IH]; [by destruct t|].
  rewrite str_app_cons. simpl. destruct (ascii_dec c c); [done | congruence].
Qed.

Lemma prefix_inv (p s : string) :
  String.prefix p s = true -> exists t, s = p +:+ t.
Proof.
  revert s. induction p as [|c p IH]; intros s Hp; [by exists s|].
  destruct s as [|d s]; [done|]. simpl in Hp.
  destruct (ascii_dec c d) as [->|]; [|done].
  destruct (IH _ Hp) as [t ->]. by exists t.
Qed.

Lemma str_contains_occurs (sep s : string) :
  str_contains sep s = true <-> occurs sep s.
Proof.
  induction s as [|c s IH]; cbn [str_contains].
  - split.
    + rewrite orb_false_r. intros Hp. apply prefix_inv in Hp as [t Ht].
      by exists "", t.
    + intros (a & b & Hab). destruct a as [|x a]; [|done].
      rewrite str_app_nil_l in Hab. destruct sep; [done|].
      by rewrite str_app_cons in Hab.
  - rewrite orb_true_iff, IH. split.
    + intros [Hp | (a & b & ->)].
      * apply prefix_inv in Hp as [t Ht]. by exists "", t.
      * by exists (String c a), b.
    + intros (a & b & Hab). destruct a as [|x a].
      * left. rewrite Hab, str_app_nil_l. apply prefix_app.
      * right. rewrite str_app_cons in Hab. injection Hab as -> ->. by exists a, b.
Qed.

Lemma split_go_skip (sep u : string) : forall t cur,
  split_go sep (String.length u) cur (u +:+ t) = split_go sep 0 cur t.
Proof.
  induction u as [|c u IH]; intros t cur; [by destruct t|].
  rewrite str_app_cons. cbn [String.length split_go]. apply IH.
Qed.

Lemma split_go_no_occurrence (sep s : string) : forall cur,
  ~ occurs sep s -> split_go sep 0 cur s = [cur +:+ s].
Proof.
  induction s as [|c s IH]; intros cur Hno; cbn [split_go].
  - by rewrite str_app_nil_r.
  - destruct (String.prefix sep (String c s)) eqn:Hp.
    + exfalso. apply Hno, str_contains_occurs. cbn [str_contains]. by rewrite Hp.
    + rewrite IH, str_app_assoc; [done|].
      intros (a & b & ->). apply Hno. by exists (String c a), b.
Qed.

Lemma split_go_first (sep h : string) : forall s t cur,
  sep <> "" -> first_occurrence sep s h t ->
  split_go sep 0 cur s = (cur +:+ h) :: split_go sep 0 "" t.
Proof.
  induction h as [|c h IH]; intros s t cur Hsep [-> Hfirst].
  - destruct sep as [|a sep]; [done|].
    rewrite str_app_nil_l, str_app_nil_r. rewrite str_app_cons at 1.
    cbn [split_go]. rewrite <- str_app_cons, prefix_app. f_equal.
    replace (String.length (String a sep) - 1) with (String.length sep)
      by (simpl; lia).
    apply split_go_skip.
  - rewrite str_app_cons. cbn [split_go].
    destruct (String.prefix sep (String c (h +:+ sep +:+ t))) eqn:Hp.
    + apply prefix_inv in Hp as [t' Ht'].
      specialize (Hfirst "" t' Ht'). simpl in Hfirst. lia.
    + rewrite (IH (h +:+ sep +:+ t) t); [by rewrite str_app_assoc | done |].
      split; [done|]. intros h' t' Heq.
      specialize (Hfirst (String c h') t'). rewrite !str_app_cons in Hfirst.
      rewrite Heq in Hfirst. specialize (Hfirst eq_refl). simpl in Hfirst. lia.
Qed.

Lemma joined_once_first (sep s h l : string) :
  joined_once sep s h l -> first_occurrence sep s h l.
Proof.
  intros [Hs Huniq]. split; [done|]. intros h' l' Heq.
  by rewrite (Huniq h' l' Heq).
Qed.

Lemma joined_once_rest (sep s h l : string) :
  sep <> "" -> joined_once sep s h l -> ~ occurs sep l.
Proof.
  intros Hsep [-> Huniq] (a & b & ->).
  specialize (Huniq (h +:+ sep +:+ a) b).
  rewrite !str_app_assoc in Huniq. specialize (Huniq eq_refl).
  apply (f_equal String.length) in Huniq.
  rewrite !str_length_app in Huniq.
  destruct sep; [done|]. simpl in Huniq. lia.
Qed.

(** [split] on a string without the separator gives the string alone. *)
Lemma str_split_absent (sep s : string) :
  str_contains sep s = false -> str_split sep s = Ok [s].
Proof.
  intros Hc. unfold str_split.
  destruct (decide (sep = "")) as [->|Hsep].
  - by destruct s.
  - rewrite split_go_no_occurrence; [done|].
    intros Ho. apply str_contains_occurs in Ho. congruence.
Qed.

Lemma str_split_first (sep s h t : string) :
  sep <> "" -> first_occurrence sep s h t ->
  exists parts, str_split sep t = Ok parts /\ str_split sep s = Ok (h :: parts).
Proof.
  intros Hsep Hfirst. unfold str_split.
  destruct (decide (sep = "")); [done|].
  eexists. split; [done|]. by rewrite (split_go_first sep h s t "").
Qed.

Lemma str_split_nonempty (sep s : string) :
  sep <> "" -> exists p parts, str_split sep s = Ok (p :: parts).
Proof.
  intros Hsep. unfold str_split. destruct (decide (sep = "")); [done|].
  assert (forall s skip cur, exists p parts, split_go sep skip cur s = p :: parts) as Hgo.
  { clear s. induction s as [|c s IH]; intros skip cur; cbn [split_go]; [eauto|].
    destruct skip; [|apply IH].
    destruct (String.prefix sep (String c s)); [eauto | apply IH]. }
  destruct (Hgo s 0 "") as (p & parts & ->). eauto.
Qed.

Lemma str_split_joined_once (sep s h l : string) :
  sep <> "" -> joined_once sep s h l -> str_split sep s = Ok [h; l].
Proof.
  intros Hsep Hj.
  destruct (str_split_first sep s h l Hsep (joined_once_first _ _ _ _ Hj))
    as (parts & Hl & ->).
  unfold str_split in Hl. destruct (decide (sep = "")); [done|].
  rewrite split_go_no_occurrence in Hl by (by eapply joined_once_rest).
  by injection Hl as <-.
Qed.

Lemma split_in_two_of_joined_once (sep s h l : string) :
  sep <> "" -> joined_once sep s h l -> split_in_two sep s h l.
Proof.
  intros Hsep Hj. split; [by apply joined_once_first | by eapply joined_once_rest].
Qed.

Lemma str_split_in_two (sep s h l : string) :
  sep <> "" -> split_in_two sep s h l -> str_split sep s = Ok [h; l].
Proof.
  intros Hsep [Hfirst Hrest].
  destruct (str_split_first sep s h l Hsep Hfirst) as (parts & Hl & ->).
  unfold str_split in Hl. destruct (decide (sep = "")); [done|].
  rewrite split_go_no_occurrence in Hl by done. by injection Hl as <-.
Qed.

Lemma str_find_unfold (sub s : string) :
  str_find sub s =
  if String.prefix sub s then Some 0
  else match s with
       | EmptyString => None
       | String _ s' => S <$> str_find sub s'
       end.
Proof. by destruct s. Qed.

Lemma str_find_le (sep h : string) : forall t n,
  str_find sep (h +:+ sep +:+ t) = Some n -> n <= String.length h.
Proof.
  induction h as [|c h IH]; intros t n; rewrite str_find_unfold.
  - rewrite str_app_nil_l, prefix_app. intros [= <-]. done.
  - destruct (String.prefix sep _); [intros [= <-]; lia|].
    rewrite str_app_cons.
    destruct (str_find sep (h +:+ sep +:+ t)) as [m|] eqn:Hm; [|done].
    intros [= <-]. apply IH in Hm. simpl. lia.
Qed.

(** A computable test for the leftmost occurrence. *)
Lemma first_occurrence_find (sep s h t : string) :
  s = h +:+ sep +:+ t -> str_find sep s = Some (String.length h) ->
  first_occurrence sep s h t.
Proof.
  intros Hs Hfind. split; [done|]. intros h' t' Hs'.
  rewrite Hs' in Hfind. by apply str_find_le in Hfind.
Qed.

Lemma first_occurrence_exists (sep s : string) :
  occurs sep s -> exists h t, first_occurrence sep s h t.
Proof.
  induction s as [|c s IH]; intros Hocc.
  - exists "", "". destruct Hocc as (a & b & Hab).
    destruct a; [|done]. destruct sep; [|done]. destruct b; [|done].
    split; [done | intros; simpl; lia].
  - destruct (String.prefix sep (String c s)) eqn:Hp.
    + apply prefix_inv in Hp as [t Ht]. exists "", t.
      split; [done | intros; simpl; lia].
    + assert (occurs sep s) as Hs.
      { destruct Hocc as (a & b & Hab). destruct a as [|x a].
        - rewrite str_app_nil_l in Hab. by rewrite Hab, prefix_app in Hp.
        - rewrite str_app_cons in Hab. injection Hab as -> ->. by exists a, b. }
      destruct (IH Hs) as (h & t & -> & Hmin). exists (String c h), t.
      split; [done|]. intros h' t' Heq. destruct h' as [|x h'].
      * rewrite str_app_nil_l in Heq. by rewrite Heq, prefix_app in Hp.
      * rewrite !str_app_cons in Heq. injection Heq as -> Heq.
        specialize (Hmin _ _ Heq). simpl. lia.
Qed.

(** ** Chain splitter *)

Section SplitterProps.
Context {L : Type} `{EqDecision L}.

Lemma extract_row_parts (r : ResultRow L) (p0 p1 : string) (rest : list string) :
  str_split (separator r) (sequence r) = Ok (p0 :: p1 :: rest) ->
  extract_row r = Ok (derived_row r p0 p1).
Proof. intros Hsplit. unfold extract_row. by rewrite Hsplit. Qed.

Lemma extract_row_one_part (r : ResultRow L) (p0 : string) :
  str_split (separator r) (sequence r) = Ok [p0] ->
  extract_row r = Err IndexError.
Proof. intros Hsplit. unfold extract_row. by rewrite Hsplit. Qed.

(** A row is split whenever its separator is non-empty and occurs in its
    sequence, whatever the lengths of its arrays. *)
Lemma extract_row_total (r : ResultRow L) :
  separator r <> "" -> occurs (separator r) (sequence r) ->
  exists p0 p1, extract_row r = Ok (derived_row r p0 p1).
Proof.
  intros Hsep Hocc.
  destruct (first_occurrence_exists _ _ Hocc) as (h & t & Hfirst).
  destruct (str_split_first _ _ _ _ Hsep Hfirst) as (parts & Ht & Hs).
  destruct (str_split_nonempty (separator r) t Hsep) as (p & parts' & Ht').
  rewrite Ht' in Ht. injection Ht as <-.
  exists h, p. by eapply extract_row_parts.
Qed.

(** [_extract] collects the rows in order and stops at the first failure. *)
Lemma extract_loop_ok (df : list (ResultRow L)) : forall acc ds,
  Forall2 (fun r d => extract_row r = Ok d) df ds ->
  for_each (fun acc r => d ← extract_row r; Ok (acc ++ [d])) df acc = Ok (acc ++ ds).
Proof.
  induction df as [|r df IH]; intros acc ds Hall; inversion Hall; subst; simpl.
  - by rewrite app_nil_r.
  - match goal with H : extract_row r = _ |- _ => rewrite H end. simpl.
    rewrite (IH _ l') by done. by rewrite <- app_assoc.
Qed.

Lemma extract_loop_abort (pre : list (ResultRow L)) (r : ResultRow L)
    (post : list (ResultRow L)) (e : py_error) : forall acc,
  Forall (fun x => exists d, extract_row x = Ok d) pre ->
  extract_row r = Err e ->
  for_each (fun acc r => d ← extract_row r; Ok (acc ++ [d])) (pre ++ r :: post) acc
  = Err e.
Proof.
  induction pre as [|x pre IH]; intros acc Hpre Hr; simpl.
  - by rewrite Hr.
  - inversion Hpre as [|? ? [d Hd] Hpre']; subst. rewrite Hd. simpl. by apply IH.
Qed.

Lemma extract_loop_fails (df : list (ResultRow L)) (r : ResultRow L) (e : py_error) :
  forall acc, r ∈ df -> extract_row r = Err e ->
  exists e', for_each (fun acc r => d ← extract_row r; Ok (acc ++ [d])) df acc = Err e'.
Proof.
  induction df as [|x df IH]; intros acc Hin Hr; [by apply elem_of_nil in Hin|].
  simpl. destruct (extract_row x) as [d|e'] eqn:Hx; simpl; [|eauto].
  apply elem_of_cons in Hin as [->|Hin]; [congruence|]. by apply IH.
Qed.

(** C4. On a row whose sequence is a heavy part and a light part joined by the
    separator, the splitter returns the heavy loss and prediction slices
    [0:hlen), the light slices [hlen+seplen:) and the two parts of the
    sequence, where hlen is the length of the heavy mask and seplen the number
    of "<" in the separator. With hlen = 10, the separator "<cls>" and 25 loss
    values, seplen is 1 and the light loss is loss[11:25], of length 14. *)
Theorem chain_splitter_slices (r : ResultRow L) (h l : string) :
  separator r <> "" ->
  split_in_two (separator r) (sequence r) h l ->
  let hlen := length (cdr_mask_heavy r) in
  let seplen := str_count_char "<" (separator r) in
  extract_row r =
    Ok {| row := r;
          heavy_loss := slice 0 hlen (loss r);
          light_loss := drop (hlen + seplen) (loss r);
          heavy_pred := slice 0 hlen (prediction r);
          light_pred := drop (hlen + seplen) (prediction r);
          heavy_sequence := h;
          light_sequence := l |} /\
  (separator r = "<cls>" -> hlen = 10 -> length (loss r) = 25 ->
   seplen = 1 /\
   slice 0 hlen (loss r) = slice 0 10 (loss r) /\
   drop (hlen + seplen) (loss r) = slice 11 25 (loss r) /\
   length (drop (hlen + seplen) (loss r)) = 14).
Proof.
  intros Hsep Hsplit hlen seplen. split.
  - apply (extract_row_parts r h l []). by apply str_split_in_two.
  - intros Hcls Hh Hlen. subst seplen. rewrite Hcls, Hh.
    split; [done|]. split; [done|]. split.
    + unfold slice. by rewrite take_ge by lia.
    + rewrite length_drop. simpl. lia.
Qed.

(** C8. When hlen + seplen reaches or passes the end of the loss (or
    prediction) array, the row is still split without error and its light
    slice of that array is empty. *)
Theorem light_slice_past_end (r : ResultRow L) :
  separator r <> "" ->
  occurs (separator r) (sequence r) ->
  let hlen := length (cdr_mask_heavy r) in
  let seplen := str_count_char "<" (separator r) in
  exists d,
    extract_row r = Ok d /\
    (length (loss r) <= hlen + seplen -> light_loss d = []) /\
    (length (prediction r) <= hlen + seplen -> light_pred d = []).
Proof.
  intros Hsep Hocc hlen seplen.
  destruct (extract_row_total r Hsep Hocc) as (p0 & p1 & Hrow).
  eexists. split; [exact Hrow|]. simpl. split; intros Hlen; by apply drop_ge.
Qed.

(** C10. A row whose sequence does not contain the separator raises
    [IndexError], and with it the whole batch: the row is not dropped. When the
    separator occurs more than once, the parts before the first and between
    the first and the second occurrence are taken. *)
Theorem missing_separator_aborts (r : ResultRow L) :
  (str_contains (separator r) (sequence r) = false ->
   extract_row r = Err IndexError /\
   (forall pre post,
      Forall (fun x => exists d, extract_row x = Ok d) pre ->
      _extract (pre ++ r :: post) = Err IndexError) /\
   (forall df, r ∈ df -> exists e, _extract df = Err e)) /\
  (forall p0 t p1 t',
     separator r <> "" ->
     first_occurrence (separator r) (sequence r) p0 t ->
     first_occurrence (separator r) t p1 t' ->
     exists d, extract_row r = Ok d /\
               heavy_sequence d = p0 /\ light_sequence d = p1).
Proof.
  split.
  - intros Habsent.
    assert (extract_row r = Err IndexError) as Hrow.
    { apply (extract_row_one_part r (sequence r)). by apply str_split_absent. }
    split; [done|]. split.
    + intros pre post Hpre. by apply extract_loop_abort.
    + intros df Hin. by eapply extract_loop_fails.
  - intros p0 t p1 t' Hsep H0 H1.
    destruct (str_split_first _ _ _ _ Hsep H1) as (parts1 & _ & Ht).
    destruct (str_split_first _ _ _ _ Hsep H0) as (parts0 & Ht' & Hs).
    rewrite Ht in Ht'. injection Ht' as <-.
    exists (derived_row r p0 p1). split; [|done].
    by apply (extract_row_parts r p0 p1 parts1).
Qed.

End SplitterProps.

Lemma example_row_split :
  split_in_two (separator example_row) (sequence example_row)
               "QVQLVQSGAE" "DIQMTQSPSSLSAS".
Proof.
  split; [by apply first_occurrence_find|].
  intros Ho. by apply str_contains_occurs in Ho.
Qed.

Lemma example_row_occurs : occurs (separator example_row) (sequence example_row).
Proof. by apply str_contains_occurs. Qed.

Lemma chain_splitter_slices_witness :
  separator example_row <> "" /\
  split_in_two (separator example_row) (sequence example_row)
               "QVQLVQSGAE" "DIQMTQSPSSLSAS" /\
  extract_row example_row =
    Ok {| row := example_row;
          heavy_loss := slice 0 10 (loss example_row);
          light_loss := drop 11 (loss example_row);
          heavy_pred := slice 0 10 (prediction example_row);
          light_pred := drop 11 (prediction example_row);
          heavy_sequence := "QVQLVQSGAE";
          light_sequence := "DIQMTQSPSSLSAS" |} /\
  (separator example_row = "<cls>" ->
   length (cdr_mask_heavy example_row) = 10 -> length (loss example_row) = 25 ->
   str_count_char "<" (separator example_row) = 1 /\
   slice 0 10 (loss example_row) = slice 0 10 (loss example_row) /\
   drop 11 (loss example_row) = slice 11 25 (loss example_row) /\
   length (drop 11 (loss example_row)) = 14).
Proof.
  split; [done|]. split; [exact example_row_split|].
  apply (chain_splitter_slices example_row "QVQLVQSGAE" "DIQMTQSPSSLSAS");
    [done | exact example_row_split].
Defined.

Lemma light_slice_past_end_witness :
  separator short_row <> "" /\
  occurs (separator short_row) (sequence short_row) /\
  length (loss short_row) <= 11 /\ length (prediction short_row) <= 11 /\
  exists d,
    extract_row short_row = Ok d /\
    (length (loss short_row) <= 11 -> light_loss d = []) /\
    (length (prediction short_row) <= 11 -> light_pred d = []).
Proof.
  split; [done|]. split; [exact example_row_occurs|].
  split; [simpl; lia|]. split; [simpl; lia|].
  apply (light_slice_past_end short_row); [done | exact example_row_occurs].
Defined.

Lemma two_sep_row_first :
  first_occurrence (separator two_sep_row) (sequence two_sep_row)
                   "QVQLVQSGAE" "DIQMTQSPSSLSAS<cls>EVK".
Proof. by apply first_occurrence_find. Qed.

Lemma two_sep_row_second :
  first_occurrence (separator two_sep_row) "DIQMTQSPSSLSAS<cls>EVK"
                   "DIQMTQSPSSLSAS" "EVK".
Proof. by apply first_occurrence_find. Qed.

Lemma missing_separator_aborts_witness :
  (str_contains (separator no_sep_row) (sequence no_sep_row) = false /\
   extract_row no_sep_row = Err IndexError /\
   (forall pre post,
      Forall (fun x => exists d, extract_row x = Ok d) pre ->
      _extract (pre ++ no_sep_row :: post) = Err IndexError) /\
   (forall df, no_sep_row ∈ df -> exists e, _extract df = Err e)) /\
  (first_occurrence (separator two_sep_row) (sequence two_sep_row)
                    "QVQLVQSGAE" "DIQMTQSPSSLSAS<cls>EVK" /\
   first_occurrence (separator two_sep_row) "DIQMTQSPSSLSAS<cls>EVK"
                    "DIQMTQSPSSLSAS" "EVK" /\
   exists d, extract_row two_sep_row = Ok d /\
             heavy_sequence d = "QVQLVQSGAE" /\
             light_sequence d = "DIQMTQSPSSLSAS").
Proof.
  split; [split; [reflexivity|] |
          split; [exact two_sep_row_first | split; [exact two_sep_row_second|]]].
  - apply (proj1 (missing_separator_aborts no_sep_row)). reflexivity.
  - apply (proj2 (missing_separator_aborts two_sep_row)
             "QVQLVQSGAE" "DIQMTQSPSSLSAS<cls>EVK" "DIQMTQSPSSLSAS" "EVK");
      [done | exact two_sep_row_first | exact two_sep_row_second].
Defined.

(** ** Region aggregator *)

Lemma slice_app {A : Type} (a e b : nat) (l : list A) :
  a <= e -> e <= b -> slice a e l ++ slice e b l = slice a b l.
Proof.
  intros Hae Heb. unfold slice.
  rewrite <- (take_drop e (take b l)) at 2.
  rewrite take_take, Nat.min_l by lia.
  rewrite drop_app, length_take.
  destruct (decide (e <= length l)).
  - by replace (a - e `min` length l) with 0 by lia.
  - rewrite (drop_ge (take b l) e) by (rewrite length_take; lia).
    by rewrite drop_nil.
Qed.

Lemma slice_length {A : Type} (s e : nat) (l : list A) :
  e <= length l -> length (slice s e l) = e - s.
Proof. intros He. unfold slice. rewrite length_drop, length_take. lia. Qed.

Lemma slices_concat (loss : list Q) (segs : list (nat * nat)) : forall a b,
  chained a segs b ->
  concat (map (fun se => slice se.1 se.2 loss) segs) = slice a b loss.
Proof.
  induction segs as [|[s e] segs IH]; intros a b Hc; simpl in *.
  - subst b. unfold slice. rewrite drop_ge; [done|]. rewrite length_take. lia.
  - destruct Hc as (-> & Hlt & Hc). rewrite (IH _ _ Hc).
    apply slice_app; [lia|]. by eapply chained_le.
Qed.

Lemma lookup_map {A B : Type} (f : A -> B) (l : list A) (i : nat) :
  map f l !! i = f <$> l !! i.
Proof. apply (list_lookup_fmap f l i). Qed.

(** *** Accuracy *)

Lemma match_count_le (ps : list string) : forall ts : list ascii,
  match_count ps ts <= length (zip ps ts).
Proof.
  induction ps as [|p ps IH]; intros [|t ts]; simpl; try lia.
  specialize (IH ts). case_decide; lia.
Qed.

Lemma match_count_all (ps : list string) (ts : list ascii) :
  Forall2 (fun p t => p = String t EmptyString) ps ts ->
  match_count ps ts = length ps.
Proof.
  induction 1 as [|p t ps ts Hpt _ IH]; simpl; [done|].
  rewrite IH. case_decide; [done | contradiction].
Qed.

Lemma match_count_none (ps : list string) (ts : list ascii) :
  Forall2 (fun p t => p <> String t EmptyString) ps ts ->
  match_count ps ts = 0.
Proof.
  induction 1 as [|p t ps ts Hpt _ IH]; simpl; [done|].
  rewrite IH. case_decide; [contradiction | done].
Qed.

Lemma Qsum_matches (ps : list string) : forall ts : list ascii,
  (Qsum (map (fun pt => Q_of_bool (token_eqb pt.1 pt.2)) (zip ps ts))
   == Q_of_nat (match_count ps ts))%Q.
Proof.
  induction ps as [|p ps IH]; intros [|t ts]; simpl; try reflexivity.
  rewrite IH. unfold token_eqb, Q_of_nat.
  rewrite Nat2Z.inj_add, inject_Z_plus.
  case_bool_decide; case_decide; try contradiction; reflexivity.
Qed.

Lemma Q_of_nat_pos (n : nat) : 0 < n -> (0 < Q_of_nat n)%Q.
Proof. intros Hn. unfold Q_of_nat. rewrite <- (Zlt_Qlt 0). lia. Qed.

Lemma Q_of_nat_le (m n : nat) : m <= n -> (Q_of_nat m <= Q_of_nat n)%Q.
Proof. intros Hmn. unfold Q_of_nat. rewrite <- Zle_Qle. lia. Qed.

(** The accuracy of a region whose slices are aligned and non-empty. *)
Lemma region_accuracy_spec (ps : list string) (ts : list ascii) :
  length ps = length ts -> 0 < length ps ->
  exists a,
    region_accuracy ps ts = Some a /\
    (a == Q_of_nat (match_count ps ts) / Q_of_nat (length ps))%Q /\
    (0 <= a <= 1)%Q /\
    (Forall2 (fun p t => p = String t EmptyString) ps ts -> a == 1)%Q /\
    (Forall2 (fun p t => p <> String t EmptyString) ps ts -> a == 0)%Q.
Proof.
  intros Hlen Hpos.
  assert (length (zip ps ts) = length ps) as Hzip
    by (rewrite length_zip_with; lia).
  pose proof (match_count_le ps ts) as Hle. rewrite Hzip in Hle.
  pose proof (Q_of_nat_pos _ Hpos) as Hn.
  set (xs := map (fun pt => Q_of_bool (token_eqb pt.1 pt.2)) (zip ps ts)).
  assert (region_accuracy ps ts = Some (Qsum xs / Qlen xs)%Q) as Hacc.
  { unfold region_accuracy, np_mean. fold xs.
    destruct xs eqn:Hxs; [|done].
    apply (f_equal length) in Hxs. subst xs.
    rewrite length_map, Hzip in Hxs. simpl in Hxs. lia. }
  assert (Qsum xs / Qlen xs == Q_of_nat (match_count ps ts) / Q_of_nat (length ps))%Q
    as Heq.
  { unfold xs at 1. rewrite Qsum_matches. unfold Qlen, xs.
    rewrite length_map, Hzip. reflexivity. }
  eexists. split; [exact Hacc|]. split; [exact Heq|]. rewrite Heq.
  split; [split|split].
  - apply Qle_shift_div_l; [done|]. rewrite Qmult_0_l.
    apply (Q_of_nat_le 0). lia.
  - apply Qle_shift_div_r; [done|]. rewrite Qmult_1_l. by apply Q_of_nat_le.
  - intros Hall. rewrite (match_count_all _ _ Hall).
    field. intros Hz. rewrite Hz in Hn. by apply Qlt_irrefl in Hn.
  - intros Hnone. rewrite (match_count_none _ _ Hnone).
    unfold Q_of_nat at 1. simpl. field.
    intros Hz. rewrite Hz in Hn. by apply Qlt_irrefl in Hn.
Qed.

Section AggregatorProps.
Context {L : Type} `{EqDecision L}.

Lemma map_zip_fst {A B C : Type} (f : A * B -> C) (g : A -> C) (xs : list A) :
  forall ys : list B,
  length xs <= length ys -> (forall x y, f (x, y) = g x) ->
  map f (zip xs ys) = map g xs.
Proof.
  induction xs as [|x xs IH]; intros [|y ys] Hlen Hfg; simpl in *; try done; [lia|].
  rewrite Hfg, IH; [done | lia | done].
Qed.

Lemma map_zip_snd {A B C : Type} (f : A * B -> C) (g : B -> C) (xs : list A) :
  forall ys : list B,
  length ys <= length xs -> (forall x y, f (x, y) = g y) ->
  map f (zip xs ys) = map g ys.
Proof.
  induction xs as [|x xs IH]; intros [|y ys] Hlen Hfg; simpl in *; try done; [lia|].
  rewrite Hfg, IH; [done | lia | done].
Qed.

Lemma chain_records_segments model chain mutated loss pred seq (cdr_mask : list L)
    (segs : list (nat * nat)) :
  find_regions cdr_mask = Ok segs ->
  chain_records model chain mutated loss pred seq cdr_mask
  = if decide (length segs <> length REGIONS) then Ok []
    else Ok (map (region_record model chain mutated loss pred seq) (zip REGIONS segs)).
Proof. intros Hfind. unfold chain_records. by rewrite Hfind. Qed.

(** A mask of 7 runs is accepted: one record per range, in order. *)
Lemma chain_records_accept model chain mutated loss pred seq (cdr_mask : list L) :
  run_count cdr_mask = 7 ->
  exists segs,
    find_regions cdr_mask = Ok segs /\
    length segs = 7 /\
    chained 0 segs (length cdr_mask) /\
    chain_records model chain mutated loss pred seq cdr_mask
    = Ok (map (region_record model chain mutated loss pred seq) (zip REGIONS segs)).
Proof.
  intros Hrc.
  destruct (find_regions_spec cdr_mask) as (segs & Hfind & Hlen & Hch & _).
  { intros ->. discriminate Hrc. }
  exists segs. split; [done|]. split; [congruence|]. split; [done|].
  rewrite (chain_records_segments _ _ _ _ _ _ _ segs Hfind).
  case_decide as Hd; [|done]. exfalso. apply Hd. rewrite Hlen, Hrc. done.
Qed.

(** A non-empty mask whose number of runs is not 7 is skipped: no exception
    and no record. *)
Lemma chain_records_skip model chain mutated loss pred seq (cdr_mask : list L) :
  cdr_mask <> [] -> run_count cdr_mask <> 7 ->
  chain_records model chain mutated loss pred seq cdr_mask = Ok [].
Proof.
  intros Hne Hrc.
  destruct (find_regions_spec cdr_mask Hne) as (segs & Hfind & Hlen & _).
  rewrite (chain_records_segments _ _ _ _ _ _ _ segs Hfind).
  case_decide as Hd; [done|]. exfalso. apply Hrc. rewrite <- Hlen.
  destruct (decide (length segs = length REGIONS)) as [->|]; [done | contradiction].
Qed.

Lemma region_record_region model chain mutated loss pred seq (rs : string * (nat * nat)) :
  rr_region (region_record model chain mutated loss pred seq rs) = rs.1.
Proof. by destruct rs as [? [? ?]]. Qed.

Lemma region_record_loss model chain mutated loss pred seq (rs : string * (nat * nat)) :
  rr_loss (region_record model chain mutated loss pred seq rs)
  = slice rs.2.1 rs.2.2 loss.
Proof. by destruct rs as [? [? ?]]. Qed.

Lemma records_regions model chain mutated loss pred seq (segs : list (nat * nat)) :
  length segs = 7 ->
  map rr_region (map (region_record model chain mutated loss pred seq) (zip REGIONS segs))
  = REGIONS.
Proof.
  intros Hlen. rewrite map_map.
  rewrite (map_zip_fst _ id); [apply map_id | by rewrite Hlen |].
  intros x [s e]. done.
Qed.

Lemma records_losses model chain mutated loss pred seq (segs : list (nat * nat)) :
  length segs = 7 ->
  map rr_loss (map (region_record model chain mutated loss pred seq) (zip REGIONS segs))
  = map (fun se => slice se.1 se.2 loss) segs.
Proof.
  intros Hlen. rewrite map_map.
  apply map_zip_snd; [by rewrite Hlen|]. intros x [s e]. done.
Qed.

(** C5. For an accepted chain whose loss array has the length of its mask,
    the loss slices of the 7 records, concatenated in the order of the
    canonical regions, are the loss array. *)
Theorem region_losses_round_trip model chain mutated loss pred seq (cdr_mask : list L) :
  run_count cdr_mask = 7 ->
  length loss = length cdr_mask ->
  exists recs,
    chain_records model chain mutated loss pred seq cdr_mask = Ok recs /\
    map rr_region recs = REGIONS /\
    concat (map rr_loss recs) = loss.
Proof.
  intros Hrc Hlen.
  destruct (chain_records_accept model chain mutated loss pred seq cdr_mask Hrc)
    as (segs & Hfind & Hseven & Hch & Hrecs).
  eexists. split; [exact Hrecs|]. split; [by apply records_regions|].
  rewrite records_losses by done. rewrite (slices_concat loss segs _ _ Hch).
  unfold slice. rewrite take_ge by lia. done.
Qed.

(** C6. In an accepted chain whose prediction and sequence are aligned with
    the mask, the accuracy of every region is the number of positions of its
    slice where the predicted residue is the true one, divided by the length
    of the slice; it lies between 0 and 1, is 1 when every position matches
    and 0 when none does. *)
Theorem accuracy_is_match_fraction model chain mutated loss pred seq
    (cdr_mask : list L) :
  run_count cdr_mask = 7 ->
  length pred = length cdr_mask ->
  length seq = length cdr_mask ->
  exists segs recs,
    find_regions cdr_mask = Ok segs /\
    chain_records model chain mutated loss pred seq cdr_mask = Ok recs /\
    length recs = 7 /\
    forall i s e rec,
      segs !! i = Some (s, e) -> recs !! i = Some rec ->
      let region_pred := slice s e pred in
      let region_seq := slice s e seq in
      length region_pred = e - s /\ length region_seq = e - s /\ s < e /\
      exists a,
        rr_accuracy rec = Some a /\
        (a == Q_of_nat (match_count region_pred region_seq) / Q_of_nat (e - s))%Q /\
        (0 <= a <= 1)%Q /\
        (Forall2 (fun p t => p = String t EmptyString) region_pred region_seq ->
         a == 1)%Q /\
        (Forall2 (fun p t => p <> String t EmptyString) region_pred region_seq ->
         a == 0)%Q.
Proof.
  intros Hrc Hpred Hseq.
  destruct (chain_records_accept model chain mutated loss pred seq cdr_mask Hrc)
    as (segs & Hfind & Hseven & Hch & Hrecs).
  exists segs. eexists. split; [done|]. split; [exact Hrecs|]. split.
  { rewrite length_map, length_zip_with, Hseven. done. }
  intros i s e rec Hseg Hrec region_pred region_seq.
  assert ((s, e) ∈ segs) as Hin by (by eapply list_elem_of_lookup_2).
  destruct (chained_after _ _ _ _ Hch Hin) as [_ He]. simpl in He.
  pose proof (chained_nonempty _ _ _ Hch) as Hne.
  unfold ranges_nonempty in Hne.
  rewrite Forall_forall in Hne. specialize (Hne _ Hin). simpl in Hne.
  assert (length region_pred = e - s) as Hlp by (apply slice_length; lia).
  assert (length region_seq = e - s) as Hls by (apply slice_length; lia).
  split; [done|]. split; [done|]. split; [done|].
  rewrite lookup_map in Hrec.
  destruct (zip REGIONS segs !! i) as [[reg se]|] eqn:Hz; [|done].
  apply lookup_zip_with_Some in Hz as (x & y & [= -> ->] & _ & Hy).
  rewrite Hseg in Hy. injection Hy as <-. injection Hrec as <-.
  cbn [region_record rr_accuracy]. fold region_pred region_seq.
  rewrite <- Hlp. apply region_accuracy_spec; lia.
Qed.

End AggregatorProps.

Lemma region_losses_round_trip_witness :
  run_count (cdr_mask_heavy example_row) = 7 /\
  length (take 10 (loss example_row)) = length (cdr_mask_heavy example_row) /\
  exists recs,
    chain_records "balm" heavy true (take 10 (loss example_row))
                  (take 10 (prediction example_row))
                  (String.list_ascii_of_string "QVQLVQSGAE")
                  (cdr_mask_heavy example_row) = Ok recs /\
    map rr_region recs = REGIONS /\
    concat (map rr_loss recs) = take 10 (loss example_row).
Proof.
  split; [reflexivity|]. split; [reflexivity|].
  apply region_losses_round_trip; reflexivity.
Defined.

Lemma accuracy_is_match_fraction_witness :
  run_count (cdr_mask_heavy example_row) = 7 /\
  length (take 10 (prediction example_row)) = length (cdr_mask_heavy example_row) /\
  length (String.list_ascii_of_string "QVQLVQSGAE")
  = length (cdr_mask_heavy example_row) /\
  exists segs recs,
    find_regions (cdr_mask_heavy example_row) = Ok segs /\
    chain_records "balm" heavy true (take 10 (loss example_row))
                  (take 10 (prediction example_row))
                  (String.list_ascii_of_string "QVQLVQSGAE")
                  (cdr_mask_heavy example_row) = Ok recs /\
    length recs = 7 /\
    forall i s e rec,
      segs !! i = Some (s, e) -> recs !! i = Some rec ->
      let region_pred := slice s e (take 10 (prediction example_row)) in
      let region_seq := slice s e (String.list_ascii_of_string "QVQLVQSGAE") in
      length region_pred = e - s /\ length region_seq = e - s /\ s < e /\
      exists a,
        rr_accuracy rec = Some a /\
        (a == Q_of_nat (match_count region_pred region_seq) / Q_of_nat (e - s))%Q /\
        (0 <= a <= 1)%Q /\
        (Forall2 (fun p t => p = String t EmptyString) region_pred region_seq ->
         a == 1)%Q /\
        (Forall2 (fun p t => p <> String t EmptyString) region_pred region_seq ->
         a == 0)%Q.
Proof.
  split; [reflexivity|]. split; [reflexivity|]. split; [reflexivity|].
  apply (accuracy_is_match_fraction "balm" heavy true (take 10 (loss example_row)));
    reflexivity.
Defined.

(** *** Labels are assigned by position *)

Lemma runs_from_fmap {L M : Type} `{EqDecision L} `{EqDecision M} (f : L -> M)
    `{!Inj (=) (=) f} (rest : list L) : forall start i prev,
  runs_from start i (f prev) (map f rest) = runs_from start i prev rest.
Proof.
  induction rest as [|c rest IH]; intros start i prev; simpl; [done|].
  rewrite !IH.
  destruct (decide (f c <> f prev)) as [Hf|Hf], (decide (c <> prev)) as [Hc|Hc];
    try done.
  - exfalso. apply Hf. f_equal.
    destruct (decide (c = prev)); [done | contradiction].
  - exfalso. apply Hf. intros Heq. by apply Hc, (inj f).
Qed.

Lemma find_regions_fmap {L M : Type} `{EqDecision L} `{EqDecision M} (f : L -> M)
    `{!Inj (=) (=) f} (cdr_mask : list L) :
  find_regions (map f cdr_mask) = find_regions cdr_mask.
Proof.
  destruct cdr_mask as [|c0 rest]; [done|].
  change (map f (c0 :: rest)) with (f c0 :: map f rest).
  by rewrite !find_regions_runs, runs_from_fmap.
Qed.

(** C7. Acceptance and labelling look at positions only. Whatever the labels
    are, a mask of exactly 7 runs is accepted and its ranges receive, in order,
    the canonical labels FR1, CDR1, FR2, CDR2, FR3, CDR3, FR4; renaming the
    labels of a mask one-to-one changes nothing in the records; and the mask
    "FFFCCCFFFCCCFFFCCCFFF", with runs F, C, F, C, F, C, F, is accepted. *)
Theorem labelling_is_positional :
  (forall (L : Type) (HL : EqDecision L) (cdr_mask : list L)
          model chain mutated loss pred seq,
     run_count cdr_mask = 7 ->
     exists segs recs,
       find_regions cdr_mask = Ok segs /\
       chain_records model chain mutated loss pred seq cdr_mask = Ok recs /\
       map rr_region recs = REGIONS /\
       map rr_loss recs = map (fun se => slice se.1 se.2 loss) segs) /\
  (forall (L M : Type) (HL : EqDecision L) (HM : EqDecision M) (f : L -> M),
     Inj (=) (=) f ->
     forall (cdr_mask : list L) model chain mutated loss pred seq,
       chain_records model chain mutated loss pred seq (map f cdr_mask)
       = chain_records model chain mutated loss pred seq cdr_mask) /\
  (run_count example_mask = 7 /\
   find_regions example_mask
   = Ok [(0, 3); (3, 6); (6, 9); (9, 12); (12, 15); (15, 18); (18, 21)] /\
   forall model chain mutated loss pred seq,
     map rr_region <$> chain_records model chain mutated loss pred seq example_mask
     = Ok REGIONS).
Proof.
  split; [|split; [|split; [|split]]].
  - intros L HL cdr_mask model chain mutated loss pred seq Hrc.
    destruct (chain_records_accept model chain mutated loss pred seq cdr_mask Hrc)
      as (segs & Hfind & Hseven & _ & Hrecs).
    exists segs. eexists. split; [done|]. split; [exact Hrecs|].
    split; [by apply records_regions | by apply records_losses].
  - intros L M HL HM f Hf cdr_mask model chain mutated loss pred seq.
    unfold chain_records. by rewrite find_regions_fmap.
  - reflexivity.
  - reflexivity.
  - intros model chain mutated loss pred seq.
    destruct (chain_records_accept model chain mutated loss pred seq example_mask)
      as (segs & _ & Hseven & _ & ->); [reflexivity|].
    cbn [fmap]. cbv [result_fmap]. f_equal. by apply records_regions.
Qed.

Lemma labelling_is_positional_witness :
  run_count example_mask = 7 /\
  exists segs recs,
    find_regions example_mask = Ok segs /\
    chain_records "balm" heavy false [] [] [] example_mask = Ok recs /\
    map rr_region recs = REGIONS /\
    map rr_loss recs = map (fun se => slice se.1 se.2 []) segs.
Proof.
  split; [reflexivity|].
  apply (proj1 labelling_is_positional ascii _ example_mask); reflexivity.
Defined.

(** *** Masks that are not accepted *)

Section SkipProps.
Context {L : Type} `{EqDecision L}.

(** A chain with a non-empty mask of other than 7 runs leaves [data] as it is. *)
Lemma process_chain_skip (r : DerivedRow L) (data : list RegionRecord) (chain : chain_id) :
  chain_mask r chain <> [] -> run_count (chain_mask r chain) <> 7 ->
  process_chain r data chain = Ok data.
Proof.
  intros Hne Hrc. unfold process_chain.
  rewrite chain_records_skip by done. simpl. by rewrite app_nil_r.
Qed.

Lemma process_chain_empty_mask (r : DerivedRow L) (data : list RegionRecord)
    (chain : chain_id) :
  chain_mask r chain = [] -> process_chain r data chain = Err IndexError.
Proof. intros Hm. unfold process_chain, chain_records. by rewrite Hm. Qed.

(** A chain with a non-empty mask never raises. *)
Lemma chain_records_total model chain mutated loss pred seq (cdr_mask : list L) :
  cdr_mask <> [] ->
  exists recs, chain_records model chain mutated loss pred seq cdr_mask = Ok recs.
Proof.
  intros Hne. destruct (find_regions_spec cdr_mask Hne) as (segs & Hfind & _).
  rewrite (chain_records_segments _ _ _ _ _ _ _ segs Hfind). case_decide; eauto.
Qed.

Lemma process_chain_total (r : DerivedRow L) (data : list RegionRecord)
    (chain : chain_id) :
  chain_mask r chain <> [] -> exists data', process_chain r data chain = Ok data'.
Proof.
  intros Hne. unfold process_chain.
  destruct (chain_records_total (model (row r)) chain (mutated_of r)
              (chain_loss r chain) (chain_pred r chain)
              (String.list_ascii_of_string (chain_sequence r chain))
              (chain_mask r chain) Hne) as [recs ->].
  by eexists.
Qed.

(** A batch in which no mask is empty is processed to the end. *)
Lemma region_processing_total (df : list (DerivedRow L)) : forall data,
  Forall (fun r => cdr_mask_heavy (row r) <> [] /\ cdr_mask_light (row r) <> []) df ->
  exists data', for_each process_row df data = Ok data'.
Proof.
  induction df as [|r df IH]; intros data Hall; [by exists data|].
  inversion Hall as [|? ? [Hh Hl] Hrest]; subst. cbn [for_each].
  assert (exists data1, process_row data r = Ok data1) as [data1 Hrow].
  { unfold process_row. cbn [for_each].
    destruct (process_chain_total r data heavy Hh) as [d1 ->].
    cbn [mbind result_bind].
    destruct (process_chain_total r d1 light Hl) as [d2 ->].
    cbn [mbind result_bind]. eauto. }
  rewrite Hrow. cbn [mbind result_bind]. by apply IH.
Qed.

End SkipProps.

(** C2 (the code departs from it). A mask without any label has no run, yet
    it is not skipped: reading its first label raises [IndexError], for the
    chain alone and for the batch. The row [empty_light_row] passes the
    splitter and then aborts [_region_processing]. *)
Theorem empty_mask_raises :
  (forall (L : Type) (HL : EqDecision L) model chain mutated loss pred seq,
     run_count (@nil L) = 0 /\
     chain_records model chain mutated loss pred seq (@nil L) = Err IndexError) /\
  (exists d,
     _extract [empty_light_row] = Ok [d] /\
     run_count (cdr_mask_light (row d)) = 0 /\
     _region_processing [d] = Err IndexError).
Proof.
  split; [done|].
  eexists. split; [reflexivity|]. split; [reflexivity|]. vm_compute. reflexivity.
Qed.

(** ** Model loader *)

(** C9. For a task other than "mlm" and "classification" the loader raises:
    never a result, and, the tokenizer being loaded first, a [ValueError]
    whose message ends with the task given once the tokenizer has loaded.
    For "mlm" and "classification" it returns the model of the matching
    loader together with the tokenizer, when both load. *)
Theorem load_model_task_dispatch (T : Transformers) (model_path task : string)
    (tokenizer_path : option string) (kwargs : Kwargs T) :
  (task <> "mlm" -> task <> "classification" ->
   (exists e, load_model_and_tokenizer T model_path task tokenizer_path kwargs = Err e) /\
   (forall tok,
      AutoTokenizer_from_pretrained T (py_or tokenizer_path model_path) = Ok tok ->
      load_model_and_tokenizer T model_path task tokenizer_path kwargs
      = Err (ValueError ("Unsupported task: " +:+ task)) /\
      occurs task ("Unsupported task: " +:+ task))) /\
  (forall tok m,
     AutoTokenizer_from_pretrained T (py_or tokenizer_path model_path) = Ok tok ->
     (task = "mlm" /\
      AutoModelForMaskedLM_from_pretrained T model_path kwargs = Ok m) \/
     (task = "classification" /\
      AutoModelForSequenceClassification_from_pretrained T model_path kwargs = Ok m) ->
     load_model_and_tokenizer T model_path task tokenizer_path kwargs = Ok (m, tok)).
Proof.
  split.
  - intros Hmlm Hcls. unfold load_model_and_tokenizer.
    destruct (AutoTokenizer_from_pretrained T _) as [tok|e] eqn:Htok; simpl.
    + rewrite !decide_False by done. simpl. split; [eauto|].
      intros tok' _. split; [done|].
      exists "Unsupported task: ", "". by rewrite str_app_nil_r.
    + split; [eauto|]. intros tok' Htok'. discriminate Htok'.
  - intros tok m Htok Hm. unfold load_model_and_tokenizer. rewrite Htok. simpl.
    destruct Hm as [[-> Hm] | [-> Hm]].
    + rewrite decide_True by done. by rewrite Hm.
    + rewrite decide_False by done. rewrite decide_True by done. by rewrite Hm.
Qed.

Lemma load_model_task_dispatch_witness :
  ("regression" <> "mlm" /\ "regression" <> "classification" /\
   (exists e,
      load_model_and_tokenizer toy_transformers "balm" "regression" None () = Err e) /\
   (forall tok,
      AutoTokenizer_from_pretrained toy_transformers (py_or None "balm") = Ok tok ->
      load_model_and_tokenizer toy_transformers "balm" "regression" None ()
      = Err (ValueError ("Unsupported task: " +:+ "regression")) /\
      occurs "regression" ("Unsupported task: " +:+ "regression"))) /\
  load_model_and_tokenizer toy_transformers "balm" "mlm" (Some "tok") ()
  = Ok ("mlm model of balm", "tokenizer of tok") /\
  load_model_and_tokenizer toy_transformers "balm" "classification" (Some "") ()
  = Ok ("classifier of balm", "tokenizer of balm").
Proof.
  split; [split; [done | split; [done|]] | split].
  - apply (proj1 (load_model_task_dispatch toy_transformers
                    "balm" "regression" None ())); done.
  - apply (proj2 (load_model_task_dispatch toy_transformers
                    "balm" "mlm" (Some "tok") ()));
      [reflexivity | left; split; reflexivity].
  - apply (proj2 (load_model_task_dispatch toy_transformers
                    "balm" "classification" (Some "") ()));
      [reflexivity | right; split; reflexivity].
Defined.

(** ** Summary builder *)

(** *** Rendering respects the value of a rational, not its representation *)

Lemma round_half_even_comp (x y : Q) :
  (x == y)%Q -> round_half_even x = round_half_even y.
Proof.
  intros Hxy. unfold round_half_even.
  rewrite (Qfloor_comp x y Hxy).
  assert ((x - inject_Z (Qfloor y) ?= 1 # 2) = (y - inject_Z (Qfloor y) ?= 1 # 2))%Q
    as -> by (apply Qcompare_comp; [by rewrite Hxy | reflexivity]).
  done.
Qed.

Lemma round_root_half_even_comp (x y : Q) :
  (x == y)%Q -> round_root_half_even x = round_root_half_even y.
Proof.
  intros Hxy. unfold round_root_half_even.
  rewrite (Qfloor_comp x y Hxy).
  set (f := Z.sqrt (Qfloor y)).
  assert ((x ?= inject_Z (f * f + f) + (1 # 4)) = (y ?= inject_Z (f * f + f) + (1 # 4)))%Q
    as -> by (apply Qcompare_comp; [done | reflexivity]).
  done.
Qed.

Lemma Qnegative_comp (x y : Q) : (x == y)%Q -> Qnegative x = Qnegative y.
Proof.
  intros Hxy. unfold Qnegative.
  assert ((x ?= 0) = (y ?= 0))%Q as -> by (apply Qcompare_comp; [done | reflexivity]).
  done.
Qed.

Lemma fmt4_comp (x y : Q) : (x == y)%Q -> fmt4 (Some x) = fmt4 (Some y).
Proof.
  intros Hxy. unfold fmt4.
  rewrite (Qnegative_comp x y Hxy).
  rewrite (round_half_even_comp (Qabs x * 10000) (Qabs y * 10000)); [done|].
  by rewrite Hxy.
Qed.

Lemma fmt4_root_comp (x y : Q) : (x == y)%Q -> fmt4_root x = fmt4_root y.
Proof.
  intros Hxy. unfold fmt4_root.
  rewrite (round_root_half_even_comp (x * 100000000) (y * 100000000)); [done|].
  by rewrite Hxy.
Qed.

Lemma fmt4_root_zero (v : Q) : (v == 0)%Q -> fmt4_root v = "0.0000".
Proof. intros Hv. by rewrite (fmt4_root_comp v 0 Hv). Qed.

(** *** The roundings are the nearest integers *)

Lemma round_half_even_nearest (x : Q) :
  (Qabs (x - inject_Z (round_half_even x)) <= 1 # 2)%Q.
Proof.
  unfold round_half_even.
  pose proof (Qfloor_le x) as Hlo. pose proof (Qlt_floor x) as Hhi.
  rewrite inject_Z_plus in Hhi. change (inject_Z 1) with 1%Q in Hhi.
  set (f := Qfloor x) in *.
  assert ((x - inject_Z f <= 1 # 2)%Q -> (Qabs (x - inject_Z f) <= 1 # 2)%Q) as Hdown.
  { intros Hle. apply Qabs_Qle_condition. lra. }
  assert ((1 # 2 <= x - inject_Z f)%Q ->
          (Qabs (x - inject_Z (f + 1)) <= 1 # 2)%Q) as Hup.
  { intros Hge. rewrite inject_Z_plus. change (inject_Z 1) with 1%Q.
    apply Qabs_Qle_condition. lra. }
  destruct (x - inject_Z f ?= 1 # 2)%Q eqn:Hcmp.
  - apply Qeq_alt in Hcmp. destruct (Z.even f); [apply Hdown | apply Hup]; lra.
  - apply Qlt_alt in Hcmp. apply Hdown. lra.
  - apply Qgt_alt in Hcmp. apply Hup. lra.
Qed.

Lemma root_floor_bounds (x : Q) :
  (0 <= x)%Q ->
  let f := inject_Z (Z.sqrt (Qfloor x)) in
  (0 <= f /\ f * f <= x /\ x < (f + 1) * (f + 1))%Q.
Proof.
  intros Hx f.
  pose proof (Qfloor_le x) as Hlo. pose proof (Qlt_floor x) as Hhi.
  assert (0 <= Qfloor x)%Z as Hn.
  { change 0%Z with (Qfloor 0). by apply Qfloor_resp_le. }
  destruct (Z.sqrt_spec (Qfloor x) Hn) as [Hs1 Hs2].
  pose proof (Z.sqrt_nonneg (Qfloor x)) as Hs0.
  set (n := Qfloor x) in *. set (s := Z.sqrt n) in *.
  assert (0 <= f)%Q as Hf0 by (unfold f; rewrite <- (Zle_Qle 0); done).
  assert (f * f <= inject_Z n)%Q as Hf1.
  { unfold f. rewrite <- inject_Z_mult, <- Zle_Qle. done. }
  assert (inject_Z (n + 1) <= (f + 1) * (f + 1))%Q as Hf2.
  { unfold f. change 1%Q with (inject_Z 1).
    rewrite <- inject_Z_plus, <- inject_Z_mult, <- Zle_Qle.
    unfold Z.succ in Hs2. lia. }
  split; [done|]. split; [lra | lra].
Qed.

(** The rendered root is a nearest integer to the root: [x] lies between the
    squares of [k - 1/2] and [k + 1/2], the lower bound being void at [k = 0]. *)
Lemma round_root_half_even_nearest (x : Q) :
  (0 <= x)%Q ->
  let k := inject_Z (round_root_half_even x) in
  (0 <= k /\ x <= (k + (1 # 2)) * (k + (1 # 2)) /\
   (k == 0 \/ (k - (1 # 2)) * (k - (1 # 2)) <= x))%Q.
Proof.
  intros Hx. unfold round_root_half_even.
  destruct (root_floor_bounds x Hx) as (Hf0 & Hf1 & Hf2).
  set (s := Z.sqrt (Qfloor x)) in *. set (f := inject_Z s) in *.
  assert (inject_Z (s * s + s) + (1 # 4) == (f + (1 # 2)) * (f + (1 # 2)))%Q as Hmid.
  { rewrite inject_Z_plus, inject_Z_mult. fold f. ring. }
  assert (0 <= s)%Z as Hs by apply Z.sqrt_nonneg.
  assert ((x <= (f + (1 # 2)) * (f + (1 # 2)))%Q ->
          (0 <= f /\ x <= (f + (1 # 2)) * (f + (1 # 2)) /\
           (f == 0 \/ (f - (1 # 2)) * (f - (1 # 2)) <= x))%Q) as Hdown.
  { intros Hle. split; [done|]. split; [done|].
    destruct (Z.eq_dec s 0%Z) as [Hz|Hz]; [left; unfold f; by rewrite Hz|].
    right. assert (1 <= f)%Q as Hone.
    { unfold f. rewrite <- (Zle_Qle 1). lia. }
    apply Qle_trans with (f * f)%Q; [|done].
    setoid_replace ((f - (1 # 2)) * (f - (1 # 2)))%Q
      with (f * f - f + (1 # 4))%Q using relation Qeq by ring. lra. }
  assert (((f + (1 # 2)) * (f + (1 # 2)) <= x)%Q ->
          (0 <= f + 1 /\ x <= (f + 1 + (1 # 2)) * (f + 1 + (1 # 2)) /\
           (f + 1 == 0 \/ (f + 1 - (1 # 2)) * (f + 1 - (1 # 2)) <= x))%Q) as Hup.
  { intros Hge. split; [lra|]. split.
    - apply Qle_trans with ((f + 1) * (f + 1))%Q; [by apply Qlt_le_weak|].
      setoid_replace ((f + 1 + (1 # 2)) * (f + 1 + (1 # 2)))%Q
        with ((f + 1) * (f + 1) + (f + 1) + (1 # 4))%Q using relation Qeq by ring. lra.
    - right. setoid_replace (f + 1 - (1 # 2))%Q with (f + (1 # 2))%Q using relation Qeq by ring. done. }
  assert (inject_Z (s + 1) == f + 1)%Q as Hs1
    by (rewrite inject_Z_plus; reflexivity).
  destruct (x ?= inject_Z (s * s + s) + (1 # 4))%Q eqn:Hcmp; cbv zeta.
  - apply Qeq_alt in Hcmp. rewrite Hmid in Hcmp.
    destruct (Z.even s).
    + apply Hdown. rewrite Hcmp. apply Qle_refl.
    + rewrite Hs1. apply Hup. rewrite Hcmp. apply Qle_refl.
  - apply Qlt_alt in Hcmp. rewrite Hmid in Hcmp. apply Hdown. by apply Qlt_le_weak.
  - apply Qgt_alt in Hcmp. rewrite Hmid in Hcmp. rewrite Hs1. apply Hup.
    by apply Qlt_le_weak.
Qed.

(** *** Groups of identical values *)

Lemma Qlen_cons {A : Type} (x : A) (xs : list A) : (Qlen (x :: xs) == Qlen xs + 1)%Q.
Proof.
  unfold Qlen. cbn [length]. rewrite Nat2Z.inj_succ. unfold Z.succ.
  by rewrite inject_Z_plus.
Qed.

Lemma Qlen_pos {A : Type} (xs : list A) : xs <> [] -> (0 < Qlen xs)%Q.
Proof.
  intros Hne. unfold Qlen. rewrite <- (Zlt_Qlt 0). destruct xs; [done | simpl; lia].
Qed.

Lemma Qsum_const (xs : list Q) (x : Q) :
  Forall (fun y => y == x)%Q xs -> (Qsum xs == Qlen xs * x)%Q.
Proof.
  induction 1 as [|y xs Hy _ IH]; [reflexivity|].
  cbv beta in Hy. cbn [Qsum foldr]. fold (Qsum xs). rewrite IH, Qlen_cons, Hy. ring.
Qed.

Lemma Qsum_zero (xs : list Q) :
  Forall (fun y => y == 0)%Q xs -> (Qsum xs == 0)%Q.
Proof. intros Hall. rewrite (Qsum_const xs 0 Hall). ring. Qed.

Lemma mean_const (xs : list Q) (x : Q) :
  xs <> [] -> Forall (fun y => y == x)%Q xs -> (Qsum xs / Qlen xs == x)%Q.
Proof.
  intros Hne Hall. rewrite (Qsum_const xs x Hall).
  pose proof (Qlen_pos xs Hne) as Hpos. field. lra.
Qed.

Lemma sum_sq_dev_const (xs : list Q) (x : Q) :
  Forall (fun y => y == x)%Q xs -> (sum_sq_dev xs == 0)%Q.
Proof.
  intros Hall. destruct xs as [|y0 xs0] eqn:Hxs; [reflexivity|].
  rewrite <- Hxs in *. assert (xs <> []) as Hne by (by rewrite Hxs).
  unfold sum_sq_dev. apply Qsum_zero.
  pose proof (mean_const xs x Hne Hall) as Hmean.
  apply Forall_forall. intros d Hd.
  apply list_elem_of_In, in_map_iff in Hd as (y & <- & Hy).
  rewrite Forall_forall in Hall. apply list_elem_of_In in Hy.
  rewrite (Hall y Hy), Hmean. ring.
Qed.

Lemma sem_squared_const (ddof : nat) (xs : list Q) (x : Q) :
  Forall (fun y => y == x)%Q xs -> (variance ddof xs / Qlen xs == 0)%Q.
Proof.
  intros Hall. unfold variance. rewrite (sum_sq_dev_const xs x Hall).
  unfold Qdiv. ring.
Qed.

Lemma np_median_const (xs : list Q) (x : Q) :
  xs <> [] -> Forall (fun y => y == x)%Q xs ->
  exists m, np_median xs = Some m /\ (m == x)%Q.
Proof.
  intros Hne Hall. unfold np_median.
  pose proof (merge_sort_Permutation Qle xs) as Hperm.
  assert (Forall (fun y => y == x)%Q (merge_sort Qle xs)) as Hsorted
    by (by rewrite Hperm).
  assert (length (merge_sort Qle xs) = length xs) as Hlen by (by rewrite Hperm).
  assert (0 < length xs) as Hpos by (destruct xs; [done | simpl; lia]).
  assert (forall k, k < length xs ->
            exists y, merge_sort Qle xs !! k = Some y /\ (y == x)%Q) as Hget.
  { intros k Hk. destruct (lookup_lt_is_Some_2 (merge_sort Qle xs) k) as [y Hy]; [lia|].
    exists y. split; [done|].
    exact (Forall_lookup_1 (fun y => y == x)%Q _ _ _ Hsorted Hy). }
  destruct (Nat.even (length xs)) eqn:Heven.
  - assert (2 <= length xs) as Htwo.
    { destruct (length xs) as [|[|n]]; [lia | discriminate Heven | lia]. }
    assert (length xs `div` 2 < length xs) as Hhalf
      by (apply Nat.div_lt; lia).
    destruct (Hget (length xs `div` 2 - 1)) as (a & -> & Ha); [lia|].
    destruct (Hget (length xs `div` 2)) as (b & -> & Hb); [lia|].
    eexists. split; [done|]. rewrite Ha, Hb. field.
  - assert (length xs `div` 2 < length xs) as Hhalf
      by (apply Nat.div_lt; lia).
    destruct (Hget (length xs `div` 2)) as (a & -> & Ha); [lia|]. eauto.
Qed.

(** *** A bare median holds no "±" *)

Lemma str_count_char_app (c : ascii) (a b : string) :
  str_count_char c (a +:+ b) = str_count_char c a + str_count_char c b.
Proof.
  induction a as [|x a IH]; [done|].
  rewrite str_app_cons. cbn [str_count_char]. rewrite IH. lia.
Qed.

Lemma str_contains_lead (c : ascii) (rest s : string) :
  str_count_char c s = 0 -> str_contains (String c rest) s = false.
Proof.
  induction s as [|a s IH]; [done|]. cbn [str_count_char str_contains String.prefix].
  destruct (decide (a = c)) as [->|Hac]; [done|]. intros Hs.
  rewrite (IH Hs). destruct (ascii_dec c a) as [->|]; [contradiction | done].
Qed.

Lemma uint_no_lead (d : Decimal.uint) :
  str_count_char (ascii_of_nat 194) (NilEmpty.string_of_uint d) = 0.
Proof. induction d; simpl; try done. Qed.

Lemma digits_no_lead (n : Z) : str_count_char (ascii_of_nat 194) (digits n) = 0.
Proof.
  unfold digits, NilZero.string_of_uint.
  destruct (N.to_uint (Z.to_N n)); try done; apply uint_no_lead.
Qed.

Lemma zeros_no_lead (n : nat) : str_count_char (ascii_of_nat 194) (zeros n) = 0.
Proof. induction n; [done | simpl; by rewrite IHn]. Qed.

Lemma fmt4_no_plus_minus (x : option Q) : str_contains "±" (fmt4 x) = false.
Proof.
  apply (str_contains_lead (ascii_of_nat 194)).
  destruct x as [q|]; [|done]. unfold fmt4, fixed4, pad_left.
  rewrite !str_count_char_app, !digits_no_lead, zeros_no_lead.
  by destruct (Qnegative q).
Qed.

(** *** Cells *)

Lemma summary_cell_spec (vals : list (option Q)) : cell_spec vals (summary_cell vals).
Proof.
  unfold cell_spec, summary_cell, format_value, group_sem_squared.
  split; [|split].
  - intros Hn. rewrite decide_True by done. split; [done | apply fmt4_no_plus_minus].
  - intros Hn. rewrite decide_False by lia. done.
  - intros Hn x Hall. rewrite decide_False by lia.
    assert (dropna vals <> []) as Hne by (destruct (dropna vals); [simpl in Hn; lia | done]).
    destruct (np_median_const _ x Hne Hall) as (m & Hm & Hmx).
    unfold group_median. rewrite Hm, (fmt4_comp m x Hmx).
    rewrite (fmt4_root_zero _ (sem_squared_const 1 _ x Hall)). done.
Qed.

(** *** The table *)

Lemma summary_rows (df : list RegionRecord) (sr : SummaryRecord) :
  sr ∈ _summary_df df ->
  let key := (sr_model sr, sr_mutated sr) in
  let g := group_of key (filter is_heavy_cdr3 df) in
  g <> [] /\
  CDRH3_median_loss sr = summary_cell (map rr_median_loss g) /\
  CDRH3_accuracy sr = summary_cell (map rr_accuracy g).
Proof.
  intros Hin. unfold _summary_df in Hin.
  apply list_elem_of_In, in_map_iff in Hin as ([m b] & <- & Hkey). simpl.
  split; [|done].
  apply list_elem_of_In in Hkey.
  rewrite merge_sort_Permutation, elem_of_remove_dups in Hkey.
  apply list_elem_of_In, in_map_iff in Hkey as (r & Hr & Hrin).
  apply list_elem_of_In in Hrin.
  intros Hnil.
  assert (r ∈ group_of (m, b) (filter is_heavy_cdr3 df)) as Hg
    by (by apply list_elem_of_filter).
  rewrite Hnil in Hg. by apply elem_of_nil in Hg.
Qed.

(** Every heavy-chain CDR3 record has the row of its group in the table. *)
Lemma summary_has_every_group (df : list RegionRecord) (r : RegionRecord) :
  r ∈ df -> is_heavy_cdr3 r ->
  exists sr, sr ∈ _summary_df df /\
             sr_model sr = rr_model r /\ sr_mutated sr = rr_mutated r.
Proof.
  intros Hin Hr. unfold _summary_df.
  set (cdr3_df := filter is_heavy_cdr3 df).
  assert (group_key r ∈ merge_sort key_le (remove_dups (map group_key cdr3_df)))
    as Hkey.
  { rewrite merge_sort_Permutation, elem_of_remove_dups.
    apply list_elem_of_In, in_map, list_elem_of_In. by apply list_elem_of_filter. }
  eexists. split.
  - apply list_elem_of_In. apply in_map. apply list_elem_of_In. exact Hkey.
  - done.
Qed.

(** C3 (as amended). Every row of the summary stands for a non-empty group of
    heavy-chain CDR3 records of one model and one mutation status, and each of
    its two cells is the group median to 4 decimals, followed by " (± sem)"
    where sem, to 4 decimals, is the sample standard deviation (divisor n - 1)
    of the group over the square root of its size n; a group of one value
    gives the bare median, without "±", and a group of two or more identical
    values gives "± 0.0000". *)
Theorem summary_cells_sample_sem (df : list RegionRecord) (sr : SummaryRecord) :
  sr ∈ _summary_df df ->
  let g := filter (fun r => (rr_model r = sr_model sr /\ rr_mutated r = sr_mutated sr)
                            /\ rr_region r = "CDR3" /\ rr_chain r = heavy) df in
  g <> [] /\
  cell_spec (map rr_median_loss g) (CDRH3_median_loss sr) /\
  cell_spec (map rr_accuracy g) (CDRH3_accuracy sr).
Proof.
  intros Hin g.
  destruct (summary_rows df sr Hin) as (Hne & Hmed & Hacc).
  assert (group_of (sr_model sr, sr_mutated sr) (filter is_heavy_cdr3 df) = g) as Hg.
  { unfold group_of, g. rewrite list_filter_filter. apply list_filter_iff.
    intros r. unfold group_key, is_heavy_cdr3. split.
    - intros [[= Hm Hb] Hr]. done.
    - intros [[Hm Hb] Hr]. split; [by rewrite Hm, Hb | done]. }
  rewrite Hg in Hne, Hmed, Hacc. rewrite Hmed, Hacc.
  split; [done|]. split; apply summary_cell_spec.
Qed.

Lemma summary_cells_sample_sem_witness :
  cdr3_summary_row ∈ _summary_df two_records /\
  let g := filter (fun r => (rr_model r = "balm" /\ rr_mutated r = false)
                            /\ rr_region r = "CDR3" /\ rr_chain r = heavy)
                  two_records in
  g <> [] /\
  cell_spec (map rr_median_loss g) "1.0000 (± 1.0000)" /\
  cell_spec (map rr_accuracy g) "0.5000 (± 0.0000)".
Proof.
  assert (cdr3_summary_row ∈ _summary_df two_records) as Hin
    by (vm_compute; left).
  split; [exact Hin|].
  exact (summary_cells_sample_sem two_records cdr3_summary_row Hin).
Defined.

(** C3 (as stated) fails: on the two records with median losses 0 and 2 the
    table holds "1.0000 (± 1.0000)", the sample standard deviation over the
    root of 2, where the population standard deviation gives 0.7071. *)
Lemma population_sem_counterexample :
  _summary_df two_records = [cdr3_summary_row] /\
  CDRH3_median_loss cdr3_summary_row = "1.0000 (± 1.0000)" /\
  population_cell (map rr_median_loss two_records) = "1.0000 (± 0.7071)" /\
  summary_cell (map rr_median_loss two_records)
  <> population_cell (map rr_median_loss two_records).
Proof. vm_compute. repeat split; discriminate. Qed.

(** * Further properties *)

(** ** The sequence column *)

Lemma first_occurrence_clean (sep s h t : string) :
  sep <> "" -> first_occurrence sep s h t -> ~ occurs sep h.
Proof.
  intros Hsep [-> Hmin] (a & b & ->).
  specialize (Hmin a (b +:+ sep +:+ t)).
  rewrite !str_app_assoc in Hmin. specialize (Hmin eq_refl).
  rewrite !str_length_app in Hmin. destruct sep; [done|]. simpl in Hmin. lia.
Qed.

Lemma first_occurrence_shorter (sep s h t : string) :
  sep <> "" -> first_occurrence sep s h t -> String.length t < String.length s.
Proof.
  intros Hsep [-> _]. rewrite !str_length_app. destruct sep; [done|]. simpl. lia.
Qed.

Lemma split_go_cons (sep s cur : string) :
  exists p parts, split_go sep 0 cur s = p :: parts.
Proof.
  assert (forall s skip cur, exists p parts, split_go sep skip cur s = p :: parts) as Hgo.
  { clear. induction s as [|c s IH]; intros skip cur; cbn [split_go]; [eauto|].
    destruct skip; [|apply IH].
    destruct (String.prefix sep (String c s)); [eauto | apply IH]. }
  apply Hgo.
Qed.

(** Joining the parts of a split with the separator gives the string back. *)
Lemma split_go_join (sep : string) : sep <> "" -> forall n s cur,
  String.length s < n -> str_join sep (split_go sep 0 cur s) = cur +:+ s.
Proof.
  intros Hsep. induction n as [|n IH]; intros s cur Hlen; [lia|].
  destruct (str_contains sep s) eqn:Hc.
  - apply str_contains_occurs, first_occurrence_exists in Hc as (h & t & Hfirst).
    rewrite (split_go_first sep h s t cur Hsep Hfirst).
    pose proof (first_occurrence_shorter _ _ _ _ Hsep Hfirst) as Hshort.
    destruct (split_go_cons sep t "") as (p & parts & Ht).
    cbn [str_join]. rewrite Ht, <- Ht, (IH t "") by lia.
    destruct Hfirst as [-> _]. by rewrite str_app_nil_l, str_app_assoc.
  - rewrite split_go_no_occurrence; [done|].
    intros Ho. apply str_contains_occurs in Ho. congruence.
Qed.

Section SequenceProps.
Context {L : Type} `{EqDecision L}.

Lemma extract_row_inv (r : ResultRow L) (d : DerivedRow L) :
  extract_row r = Ok d ->
  exists p0 p1 rest,
    str_split (separator r) (sequence r) = Ok (p0 :: p1 :: rest) /\
    d = derived_row r p0 p1.
Proof.
  unfold extract_row. intros Hd.
  destruct (str_split (separator r) (sequence r)) as [[|p0 [|p1 rest]]|e]; try done.
  exists p0, p1, rest. split; [done|]. by injection Hd as <-.
Qed.

Lemma extract_row_splittable (r : ResultRow L) :
  (exists d, extract_row r = Ok d) <-> splittable r.
Proof.
  split.
  - intros [d Hd]. apply extract_row_inv in Hd as (p0 & p1 & rest & Hsplit & _).
    unfold str_split in Hsplit.
    destruct (decide (separator r = "")) as [|Hsep]; [done|]. split; [done|].
    apply str_contains_occurs.
    destruct (str_contains (separator r) (sequence r)) eqn:Hc; [done|].
    rewrite split_go_no_occurrence in Hsplit; [done|].
    intros Ho. apply str_contains_occurs in Ho. congruence.
  - intros [Hsep Hocc]. destruct (extract_row_total r Hsep Hocc) as (p0 & p1 & Hrow).
    eauto.
Qed.

(** X1. The two sequences of a split row, put around the separator, give the
    row's sequence back up to a discarded tail, which is empty or begins with
    a further separator; neither of the two contains the separator. *)
Theorem derived_sequences_rebuild (r : ResultRow L) (d : DerivedRow L) :
  extract_row r = Ok d ->
  exists tail,
    sequence r = heavy_sequence d +:+ separator r +:+ light_sequence d +:+ tail /\
    (tail = "" \/ exists t, tail = separator r +:+ t) /\
    ~ occurs (separator r) (heavy_sequence d) /\
    ~ occurs (separator r) (light_sequence d).
Proof.
  intros Hd.
  assert (splittable r) as [Hsep Hocc] by (apply extract_row_splittable; eauto).
  apply extract_row_inv in Hd as (p0 & p1 & rest & Hsplit & ->). simpl.
  destruct (first_occurrence_exists _ _ Hocc) as (h & t & Hfirst).
  destruct (str_split_first _ _ _ _ Hsep Hfirst) as (parts & Ht & Hs).
  rewrite Hs in Hsplit. injection Hsplit as <- ->.
  pose proof (first_occurrence_clean _ _ _ _ Hsep Hfirst) as Hclean.
  destruct Hfirst as [Hseq _]. rewrite Hseq.
  destruct (str_contains (separator r) t) eqn:Hc.
  - apply str_contains_occurs, first_occurrence_exists in Hc as (h1 & t1 & Hfirst1).
    destruct (str_split_first _ _ _ _ Hsep Hfirst1) as (parts1 & _ & Ht1).
    rewrite Ht1 in Ht. injection Ht as <- _.
    pose proof (first_occurrence_clean _ _ _ _ Hsep Hfirst1) as Hclean1.
    destruct Hfirst1 as [-> _].
    exists (separator r +:+ t1). repeat split; eauto.
  - assert (~ occurs (separator r) t) as Hno.
    { intros Ho. apply str_contains_occurs in Ho. congruence. }
    unfold str_split in Ht. destruct (decide (separator r = "")); [done|].
    rewrite split_go_no_occurrence in Ht by done. injection Ht as <- _.
    exists "". rewrite str_app_nil_l, str_app_nil_r. repeat split; eauto.
Qed.

End SequenceProps.

Lemma derived_sequences_rebuild_witness :
  exists tail,
    sequence two_sep_row
    = heavy_sequence (derived_row two_sep_row "QVQLVQSGAE" "DIQMTQSPSSLSAS")
      +:+ separator two_sep_row
      +:+ light_sequence (derived_row two_sep_row "QVQLVQSGAE" "DIQMTQSPSSLSAS")
      +:+ tail /\
    (tail = "" \/ exists t, tail = separator two_sep_row +:+ t) /\
    ~ occurs (separator two_sep_row)
        (heavy_sequence (derived_row two_sep_row "QVQLVQSGAE" "DIQMTQSPSSLSAS")) /\
    ~ occurs (separator two_sep_row)
        (light_sequence (derived_row two_sep_row "QVQLVQSGAE" "DIQMTQSPSSLSAS")).
Proof.
  apply (derived_sequences_rebuild two_sep_row). reflexivity.
Defined.

(** ** The splitter over a batch *)

Section BatchSplitterProps.
Context {L : Type} `{EqDecision L}.

Lemma extract_loop_inv (df : list (ResultRow L)) : forall acc res,
  for_each (fun acc r => d ← extract_row r; Ok (acc ++ [d])) df acc = Ok res ->
  exists ds, res = acc ++ ds /\ Forall2 (fun r d => extract_row r = Ok d) df ds.
Proof.
  induction df as [|r df IH]; intros acc res Hres; cbn [for_each] in Hres.
  - injection Hres as <-. exists []. by rewrite app_nil_r.
  - destruct (extract_row r) as [d|e] eqn:Hr; [|done]. cbn in Hres.
    apply IH in Hres as (ds & -> & Hall). exists (d :: ds).
    split; [by rewrite <- app_assoc | by constructor].
Qed.

Lemma extract_row_row (r : ResultRow L) (d : DerivedRow L) :
  extract_row r = Ok d -> row d = r.
Proof. intros Hd. by apply extract_row_inv in Hd as (p0 & p1 & rest & _ & ->). Qed.

(** X2. A split row loses nothing but the separator positions: its heavy
    slice, the [seplen] values at the separator and its light slice are,
    in this order, the whole array, for the losses and for the predictions;
    the heavy slice has [hlen] values unless the array is shorter. *)
Theorem splitter_partitions_arrays (r : ResultRow L) (d : DerivedRow L) :
  extract_row r = Ok d ->
  let hlen := length (cdr_mask_heavy r) in
  let seplen := str_count_char "<" (separator r) in
  heavy_loss d ++ slice hlen (hlen + seplen) (loss r) ++ light_loss d = loss r /\
  heavy_pred d ++ slice hlen (hlen + seplen) (prediction r) ++ light_pred d
  = prediction r /\
  length (heavy_loss d) = hlen `min` length (loss r) /\
  length (light_loss d) = length (loss r) - (hlen + seplen).
Proof.
  intros Hd hlen seplen.
  apply extract_row_inv in Hd as (p0 & p1 & rest & _ & ->). simpl.
  fold hlen seplen.
  assert (forall (A : Type) (a : list A),
            slice 0 hlen a ++ slice hlen (hlen + seplen) a ++ drop (hlen + seplen) a = a)
    as Hpart.
  { intros A a. rewrite app_assoc, slice_app by lia.
    unfold slice. rewrite drop_0. apply take_drop. }
  split; [apply Hpart|]. split; [apply Hpart|].
  unfold slice. rewrite drop_0, length_take, length_drop. done.
Qed.

(** X3. [_extract] returns exactly when every row of the batch has a
    non-empty separator that occurs in its sequence. *)
Theorem extract_succeeds_iff (df : list (ResultRow L)) :
  (exists ds, _extract df = Ok ds) <-> Forall splittable df.
Proof.
  unfold _extract. split.
  - intros [ds Hds]. apply extract_loop_inv in Hds as (ds' & _ & Hall).
    induction Hall as [|r d df ds' Hr _ IH]; constructor; [|done].
    apply extract_row_splittable. eauto.
  - intros Hall.
    assert (exists ds, Forall2 (fun r d => extract_row r = Ok d) df ds) as [ds Hds].
    { induction Hall as [|r df Hr _ [ds IH]]; [by exists []|].
      apply extract_row_splittable in Hr as [d Hd]. exists (d :: ds). by constructor. }
    exists ds. by rewrite (extract_loop_ok df [] ds Hds).
Qed.

(** X4. [_extract] adds columns only: when it returns, the rows are those of
    the batch, as many and in the same order, each with the columns that
    [extract_row] gives it. *)
Theorem extract_keeps_rows (df : list (ResultRow L)) (ds : list (DerivedRow L)) :
  _extract df = Ok ds ->
  map row ds = df /\ Forall2 (fun r d => extract_row r = Ok d) df ds.
Proof.
  intros Hds. unfold _extract in Hds.
  apply extract_loop_inv in Hds as (ds' & -> & Hall). simpl. split; [|done].
  induction Hall as [|r d df ds' Hr _ IH]; [done|].
  simpl. by rewrite (extract_row_row r d Hr), IH.
Qed.

(** X5. The first row that cannot be split decides the exception of the
    batch: [ValueError] when its separator is empty, [IndexError] when its
    separator does not occur in its sequence. *)
Theorem extract_first_failure (pre : list (ResultRow L)) (r : ResultRow L)
    (post : list (ResultRow L)) :
  Forall splittable pre ->
  ~ splittable r ->
  _extract (pre ++ r :: post)
  = Err (if decide (separator r = "") then ValueError "empty separator"
         else IndexError).
Proof.
  intros Hpre Hr. unfold _extract. apply extract_loop_abort.
  - eapply Forall_impl; [exact Hpre|]. intros x Hx. by apply extract_row_splittable.
  - destruct (decide (separator r = "")) as [Hsep|Hsep].
    + unfold extract_row, str_split. by rewrite Hsep.
    + apply (extract_row_one_part r (sequence r)), str_split_absent.
      destruct (str_contains (separator r) (sequence r)) eqn:Hc; [|done].
      exfalso. apply Hr. split; [done | by apply str_contains_occurs].
Qed.

End BatchSplitterProps.

Lemma example_row_splittable : splittable example_row.
Proof. split; [done | exact example_row_occurs]. Qed.

Lemma splitter_partitions_arrays_witness :
  extract_row short_row = Ok (derived_row short_row "QVQLVQSGAE" "DIQMTQSPSSLSAS") /\
  let d := derived_row short_row "QVQLVQSGAE" "DIQMTQSPSSLSAS" in
  heavy_loss d ++ slice 10 11 (loss short_row) ++ light_loss d = loss short_row /\
  heavy_pred d ++ slice 10 11 (prediction short_row) ++ light_pred d
  = prediction short_row /\
  length (heavy_loss d) = 10 `min` length (loss short_row) /\
  length (light_loss d) = length (loss short_row) - 11.
Proof.
  split; [reflexivity|].
  apply (splitter_partitions_arrays short_row). reflexivity.
Defined.

Lemma extract_keeps_rows_witness :
  _extract [example_row; two_sep_row]
  = Ok [derived_row example_row "QVQLVQSGAE" "DIQMTQSPSSLSAS";
        derived_row two_sep_row "QVQLVQSGAE" "DIQMTQSPSSLSAS"] /\
  map row [derived_row example_row "QVQLVQSGAE" "DIQMTQSPSSLSAS";
           derived_row two_sep_row "QVQLVQSGAE" "DIQMTQSPSSLSAS"]
  = [example_row; two_sep_row] /\
  Forall2 (fun r d => extract_row r = Ok d) [example_row; two_sep_row]
          [derived_row example_row "QVQLVQSGAE" "DIQMTQSPSSLSAS";
           derived_row two_sep_row "QVQLVQSGAE" "DIQMTQSPSSLSAS"].
Proof.
  split; [reflexivity|].
  apply (extract_keeps_rows [example_row; two_sep_row]). reflexivity.
Defined.

Lemma empty_sep_row_not_splittable : ~ splittable empty_sep_row.
Proof. intros [Hsep _]. by apply Hsep. Qed.

Lemma extract_first_failure_witness :
  Forall splittable [example_row] /\
  ~ splittable empty_sep_row /\
  _extract ([example_row] ++ empty_sep_row :: [no_sep_row])
  = Err (ValueError "empty separator").
Proof.
  split; [apply Forall_cons_2; [exact example_row_splittable | constructor]|].
  split; [exact empty_sep_row_not_splittable|].
  exact (extract_first_failure [example_row] empty_sep_row [no_sep_row]
           (Forall_cons_2 _ _ _ example_row_splittable (Forall_nil_2 _))
           empty_sep_row_not_splittable).
Defined.

(** ** The segmenter on any mask *)

Section AnyMaskProps.
Context {L : Type} `{EqDecision L}.

Lemma run_count_le_length (m : list L) : run_count m <= length m.
Proof.
  induction m as [|c rest IH]; [done|]. cbn [run_count length].
  destruct rest as [|d rest]; [lia|]. case_decide; lia.
Qed.

Lemma run_count_pos (m : list L) : m <> [] -> 1 <= run_count m.
Proof.
  induction m as [|c rest IH]; [done|]. intros _. cbn [run_count].
  destruct rest as [|d rest]; [lia|]. case_decide; [by apply IH | lia].
Qed.

(** X6. Whatever the number of runs, the scan of a non-empty mask returns one
    range per maximal run: as many ranges as runs, each non-empty, in
    ascending order and disjoint, covering [0, len(mask)), each holding one
    label that changes at its right end. *)
Theorem segmenter_ranges_are_runs (cdr_mask : list L) :
  cdr_mask <> [] ->
  exists segs,
    find_regions cdr_mask = Ok segs /\
    length segs = run_count cdr_mask /\
    ranges_nonempty segs /\
    ranges_ascending_disjoint segs /\
    ranges_cover (length cdr_mask) segs /\
    maximal_runs cdr_mask segs.
Proof.
  intros Hne.
  destruct (find_regions_spec cdr_mask Hne) as (segs & Hfind & Hlen & Hch & Hmax).
  exists segs. split; [done|]. split; [done|].
  split; [by eapply chained_nonempty|].
  split; [by eapply chained_ascending|].
  split; [|done].
  intros k. rewrite <- (chained_cover _ _ _ k Hch). lia.
Qed.

(** X7. The scan returns at least one range and at most one per label, so a
    non-empty chain of fewer than 7 positions is always skipped: it gives no
    record and no exception. *)
Theorem short_chain_is_skipped model chain mutated loss pred seq (cdr_mask : list L) :
  cdr_mask <> [] ->
  (exists segs, find_regions cdr_mask = Ok segs /\
                1 <= length segs <= length cdr_mask) /\
  (length cdr_mask < 7 ->
   chain_records model chain mutated loss pred seq cdr_mask = Ok []).
Proof.
  intros Hne. pose proof (run_count_le_length cdr_mask) as Hle.
  pose proof (run_count_pos cdr_mask Hne) as Hpos. split.
  - destruct (find_regions_spec cdr_mask Hne) as (segs & Hfind & Hlen & _).
    exists segs. split; [done | lia].
  - intros Hshort. apply chain_records_skip; [done | lia].
Qed.

End AnyMaskProps.

Lemma segmenter_ranges_are_runs_witness :
  String.list_ascii_of_string "FFFCC" <> [] /\
  exists segs,
    find_regions (String.list_ascii_of_string "FFFCC") = Ok segs /\
    length segs = run_count (String.list_ascii_of_string "FFFCC") /\
    ranges_nonempty segs /\
    ranges_ascending_disjoint segs /\
    ranges_cover (length (String.list_ascii_of_string "FFFCC")) segs /\
    maximal_runs (String.list_ascii_of_string "FFFCC") segs.
Proof.
  split; [done|].
  apply (segmenter_ranges_are_runs (String.list_ascii_of_string "FFFCC")). done.
Defined.

Lemma short_chain_is_skipped_witness :
  String.list_ascii_of_string "FCFCFC" <> [] /\
  (exists segs, find_regions (String.list_ascii_of_string "FCFCFC") = Ok segs /\
                1 <= length segs <= length (String.list_ascii_of_string "FCFCFC")) /\
  (length (String.list_ascii_of_string "FCFCFC") < 7 ->
   chain_records "balm" heavy false [] [] [] (String.list_ascii_of_string "FCFCFC")
   = Ok []).
Proof.
  split; [done|].
  apply (short_chain_is_skipped "balm" heavy false [] [] []
           (String.list_ascii_of_string "FCFCFC")). done.
Defined.

(** ** The aggregator over a batch *)

Section BatchAggregatorProps.
Context {L : Type} `{EqDecision L}.

Lemma chain_output_ok (r : DerivedRow L) (chain : chain_id) :
  chain_mask r chain <> [] ->
  chain_records (model (row r)) chain (mutated_of r)
    (chain_loss r chain) (chain_pred r chain)
    (String.list_ascii_of_string (chain_sequence r chain))
    (chain_mask r chain) = Ok (chain_output r chain).
Proof.
  intros Hne. unfold chain_output.
  destruct (chain_records_total (model (row r)) chain (mutated_of r)
              (chain_loss r chain) (chain_pred r chain)
              (String.list_ascii_of_string (chain_sequence r chain))
              (chain_mask r chain) Hne) as [recs ->].
  done.
Qed.

Lemma process_chain_ok (r : DerivedRow L) (data : list RegionRecord) (chain : chain_id) :
  chain_mask r chain <> [] ->
  process_chain r data chain = Ok (data ++ chain_output r chain).
Proof. intros Hne. unfold process_chain. by rewrite chain_output_ok. Qed.

Lemma process_row_ok (r : DerivedRow L) (data : list RegionRecord) :
  masks_nonempty r -> process_row data r = Ok (data ++ row_records r).
Proof.
  intros [Hh Hl]. unfold process_row, row_records. cbn [for_each].
  rewrite (process_chain_ok r data heavy Hh). cbn [mbind result_bind].
  rewrite (process_chain_ok r _ light Hl). cbn [mbind result_bind].
  by rewrite <- app_assoc.
Qed.

Lemma process_row_err (r : DerivedRow L) (data : list RegionRecord) :
  ~ masks_nonempty r -> process_row data r = Err IndexError.
Proof.
  intros Hbad. unfold process_row. cbn [for_each].
  destruct (decide (cdr_mask_heavy (row r) = [])) as [Hh|Hh].
  - by rewrite (process_chain_empty_mask r data heavy Hh).
  - rewrite (process_chain_ok r data heavy Hh). cbn [mbind result_bind].
    destruct (decide (cdr_mask_light (row r) = [])) as [Hl|Hl].
    + by rewrite (process_chain_empty_mask r _ light Hl).
    + exfalso. by apply Hbad.
Qed.

Lemma region_loop_ok (df : list (DerivedRow L)) : forall data,
  Forall masks_nonempty df ->
  for_each process_row df data = Ok (data ++ concat (map row_records df)).
Proof.
  induction df as [|r df IH]; intros data Hall; cbn [for_each map concat].
  - by rewrite app_nil_r.
  - inversion Hall as [|? ? Hr Hrest]; subst.
    rewrite (process_row_ok r data Hr). cbn [mbind result_bind].
    rewrite (IH _ Hrest). by rewrite <- app_assoc.
Qed.

Lemma region_loop_err (df : list (DerivedRow L)) : forall data,
  ~ Forall masks_nonempty df -> for_each process_row df data = Err IndexError.
Proof.
  induction df as [|r df IH]; intros data Hbad; [exfalso; apply Hbad; constructor|].
  cbn [for_each]. destruct (decide (cdr_mask_heavy (row r) <> [] /\
                                     cdr_mask_light (row r) <> [])) as [Hr|Hr].
  - rewrite (process_row_ok r data Hr). cbn [mbind result_bind]. apply IH.
    intros Hrest. apply Hbad. by constructor.
  - by rewrite (process_row_err r data Hr).
Qed.

(** X8. [_region_processing] raises exactly when some mask of the batch holds
    no label, and then it raises [IndexError]; otherwise it returns the
    records of the rows, in the order of the rows. *)
Theorem region_processing_raises_iff (df : list (DerivedRow L)) :
  (Forall masks_nonempty df ->
   _region_processing df = Ok (concat (map row_records df))) /\
  (~ Forall masks_nonempty df -> _region_processing df = Err IndexError) /\
  (forall e, _region_processing df = Err e ->
             e = IndexError /\ ~ Forall masks_nonempty df).
Proof.
  unfold _region_processing. split; [|split].
  - intros Hall. by rewrite (region_loop_ok df [] Hall).
  - intros Hbad. by apply region_loop_err.
  - intros e He.
    destruct (decide (Forall (fun r => cdr_mask_heavy (row r) <> [] /\
                                       cdr_mask_light (row r) <> []) df)) as [Hall|Hbad].
    + rewrite (region_loop_ok df [] Hall) in He. done.
    + rewrite (region_loop_err df [] Hbad) in He. by injection He as <-.
Qed.

(** X9. Processing does not depend on how the rows are batched: the records
    of two batches put end to end are the records of the first followed by
    those of the second. *)
Theorem region_processing_app (df1 df2 : list (DerivedRow L))
    (data1 data2 : list RegionRecord) :
  _region_processing df1 = Ok data1 ->
  _region_processing df2 = Ok data2 ->
  _region_processing (df1 ++ df2) = Ok (data1 ++ data2).
Proof.
  unfold _region_processing. intros H1 H2.
  assert (forall (df : list (DerivedRow L)) data,
            for_each process_row df [] = Ok data ->
            Forall masks_nonempty df /\ data = concat (map row_records df)) as Hinv.
  { intros df data Hdata.
    destruct (decide (Forall (fun r : DerivedRow L =>
                                cdr_mask_heavy (row r) <> [] /\
                                cdr_mask_light (row r) <> []) df)) as [Hall|Hbad].
    - rewrite (region_loop_ok df [] Hall) in Hdata. injection Hdata as <-. done.
    - by rewrite (region_loop_err df [] Hbad) in Hdata. }
  destruct (Hinv _ _ H1) as [Hall1 ->]. destruct (Hinv _ _ H2) as [Hall2 ->].
  rewrite (region_loop_ok (df1 ++ df2) []) by (by apply Forall_app).
  by rewrite map_app, concat_app.
Qed.

End BatchAggregatorProps.

Lemma region_processing_raises_iff_witness :
  _region_processing [example_derived] = Ok (concat (map row_records [example_derived])) /\
  _region_processing [example_derived; empty_light_derived] = Err IndexError.
Proof.
  split.
  - apply (proj1 (region_processing_raises_iff [example_derived])).
    apply Forall_cons_2; [by split | constructor].
  - apply (proj1 (proj2 (region_processing_raises_iff
                           [example_derived; empty_light_derived]))).
    intros Hall. apply Forall_cons_1 in Hall as [_ Hall].
    apply Forall_cons_1 in Hall as [[_ Hlight] _]. by apply Hlight.
Defined.

Lemma region_processing_app_witness :
  _region_processing [example_derived] = Ok example_records /\
  _region_processing [example_derived; example_derived]
  = Ok (example_records ++ example_records) /\
  _region_processing ([example_derived] ++ [example_derived; example_derived])
  = Ok (example_records ++ example_records ++ example_records).
Proof.
  assert (_region_processing [example_derived] = Ok example_records) as H1
    by (vm_compute; reflexivity).
  assert (_region_processing [example_derived; example_derived]
          = Ok (example_records ++ example_records)) as H2
    by (vm_compute; reflexivity).
  split; [exact H1|]. split; [exact H2|].
  exact (region_processing_app _ _ _ _ H1 H2).
Defined.

(** *** What the records of a batch are *)

Section RecordProps.
Context {L : Type} `{EqDecision L}.

Lemma chain_output_cases (r : DerivedRow L) (chain : chain_id) :
  (run_count (chain_mask r chain) = 7 /\
   exists segs, length segs = 7 /\
     chain_output r chain
     = map (region_record (model (row r)) chain (mutated_of r)
              (chain_loss r chain) (chain_pred r chain)
              (String.list_ascii_of_string (chain_sequence r chain)))
           (zip REGIONS segs)) \/
  (run_count (chain_mask r chain) <> 7 /\ chain_output r chain = []).
Proof.
  destruct (decide (run_count (chain_mask r chain) = 7)) as [Hrc|Hrc].
  - left. split; [done|].
    destruct (chain_records_accept (model (row r)) chain (mutated_of r)
                (chain_loss r chain) (chain_pred r chain)
                (String.list_ascii_of_string (chain_sequence r chain))
                (chain_mask r chain) Hrc) as (segs & _ & Hseven & _ & Hrecs).
    exists segs. split; [done|]. unfold chain_output. by rewrite Hrecs.
  - right. split; [done|]. unfold chain_output.
    destruct (decide (chain_mask r chain = [])) as [Hm|Hm].
    + unfold chain_records. by rewrite Hm.
    + by rewrite chain_records_skip.
Qed.

Lemma chain_output_length (r : DerivedRow L) (chain : chain_id) :
  length (chain_output r chain)
  = if decide (run_count (chain_mask r chain) = 7) then 7 else 0.
Proof.
  destruct (chain_output_cases r chain) as [(Hrc & segs & Hlen & ->) | (Hrc & ->)].
  - rewrite decide_True by done. by rewrite length_map, length_zip_with, Hlen.
  - by rewrite decide_False by done.
Qed.

Lemma chain_output_tags (r : DerivedRow L) (chain : chain_id) (rec : RegionRecord) :
  rec ∈ chain_output r chain ->
  rr_model rec = model (row r) /\ rr_chain rec = chain /\
  rr_mutated rec = mutated_of r /\ rr_region rec ∈ REGIONS /\
  run_count (chain_mask r chain) = 7.
Proof.
  intros Hin.
  destruct (chain_output_cases r chain) as [(Hrc & segs & Hlen & Hout) | (Hrc & Hout)];
    rewrite Hout in Hin; [|by apply elem_of_nil in Hin].
  apply list_elem_of_In, in_map_iff in Hin as ([reg [s e]] & <- & Hin).
  apply list_elem_of_In in Hin. apply elem_of_zip_l in Hin. done.
Qed.

Lemma row_records_length (df : list (DerivedRow L)) :
  length (concat (map row_records df)) = 7 * accepted_chains df.
Proof.
  unfold accepted_chains. induction df as [|r df IH]; [done|].
  cbn [map concat sum_list sum_list_with]. rewrite length_app, IH.
  unfold row_records. rewrite length_app, !chain_output_length.
  change (chain_mask r heavy) with (cdr_mask_heavy (row r)).
  change (chain_mask r light) with (cdr_mask_light (row r)).
  generalize (sum_list (map (fun r0 : DerivedRow L =>
      (if decide (run_count (cdr_mask_heavy (row r0)) = 7) then 1 else 0)
      + (if decide (run_count (cdr_mask_light (row r0)) = 7) then 1 else 0)) df)).
  intros rest. unfold id.
  destruct (decide (run_count (cdr_mask_heavy (row r)) = 7)),
           (decide (run_count (cdr_mask_light (row r)) = 7)); lia.
Qed.

(** X10. When [_region_processing] returns, it holds 7 records for every
    chain of the batch whose mask has exactly 7 runs and none for the other
    chains; every record bears one of the canonical labels, the model of the
    row it comes from, and is marked mutated exactly when one of the two
    mutation counts of that row is not zero. *)
Theorem region_processing_records (df : list (DerivedRow L)) (data : list RegionRecord) :
  _region_processing df = Ok data ->
  length data = 7 * accepted_chains df /\
  forall rec, rec ∈ data ->
    exists r, r ∈ df /\
      rr_model rec = model (row r) /\
      (rr_mutated rec = true <->
       v_mutation_count_aa_heavy (row r) <> 0%Z \/
       v_mutation_count_aa_light (row r) <> 0%Z) /\
      rr_region rec ∈ REGIONS /\
      run_count (chain_mask r (rr_chain rec)) = 7.
Proof.
  intros Hdata. unfold _region_processing in Hdata.
  destruct (decide (Forall (fun r : DerivedRow L =>
                              cdr_mask_heavy (row r) <> [] /\
                              cdr_mask_light (row r) <> []) df)) as [Hall|Hbad];
    [|by rewrite (region_loop_err df [] Hbad) in Hdata].
  rewrite (region_loop_ok df [] Hall) in Hdata. injection Hdata as <-.
  split; [apply row_records_length|].
  intros rec Hrec. apply list_elem_of_In, in_concat in Hrec as (recs & Hrecs & Hrec).
  apply in_map_iff in Hrecs as (r & <- & Hr).
  apply list_elem_of_In in Hrec, Hr. exists r. split; [done|].
  assert (exists chain, rec ∈ chain_output r chain) as [chain Hc].
  { unfold row_records in Hrec. apply elem_of_app in Hrec as [?|?]; eauto. }
  destruct (chain_output_tags r chain rec Hc) as (Hm & Hch & Hmut & Hreg & Hrc).
  split; [done|]. split; [|by rewrite Hch].
  rewrite Hmut. unfold mutated_of.
  rewrite orb_true_iff, !negb_true_iff, !Z.eqb_neq. done.
Qed.

End RecordProps.

Lemma region_processing_records_witness :
  _region_processing [example_derived] = Ok example_records /\
  length example_records = 7 * accepted_chains [example_derived] /\
  forall rec, rec ∈ example_records ->
    exists r, r ∈ [example_derived] /\
      rr_model rec = model (row r) /\
      (rr_mutated rec = true <->
       v_mutation_count_aa_heavy (row r) <> 0%Z \/
       v_mutation_count_aa_light (row r) <> 0%Z) /\
      rr_region rec ∈ REGIONS /\
      run_count (chain_mask r (rr_chain rec)) = 7.
Proof.
  assert (_region_processing [example_derived] = Ok example_records) as H1
    by (vm_compute; reflexivity).
  split; [exact H1|].
  exact (region_processing_records [example_derived] example_records H1).
Defined.

(** ** The metrics of a region *)

Lemma np_mean_None (xs : list Q) : np_mean xs = None <-> xs = [].
Proof. by destruct xs. Qed.

Lemma np_median_Some (xs : list Q) :
  xs <> [] ->
  exists m, np_median xs = Some m /\
    ((exists a, a ∈ xs /\ m = a) \/
     (exists a b, a ∈ xs /\ b ∈ xs /\ m = ((a + b) / 2)%Q)).
Proof.
  intros Hne. unfold np_median.
  pose proof (merge_sort_Permutation Qle xs) as Hperm.
  assert (length (merge_sort Qle xs) = length xs) as Hlen by (by rewrite Hperm).
  assert (0 < length xs) as Hpos by (destruct xs; [done | simpl; lia]).
  assert (forall k, k < length xs ->
            exists y, merge_sort Qle xs !! k = Some y /\ y ∈ xs) as Hget.
  { intros k Hk. destruct (lookup_lt_is_Some_2 (merge_sort Qle xs) k) as [y Hy]; [lia|].
    exists y. split; [done|]. rewrite <- Hperm. by eapply list_elem_of_lookup_2. }
  assert (length xs `div` 2 < length xs) as Hhalf by (apply Nat.div_lt; lia).
  destruct (Nat.even (length xs)) eqn:Heven.
  - destruct (Hget (length xs `div` 2 - 1)) as (a & -> & Ha); [lia|].
    destruct (Hget (length xs `div` 2)) as (b & -> & Hb); [lia|].
    eexists. split; [done|]. right. eauto.
  - destruct (Hget (length xs `div` 2)) as (a & -> & Ha); [lia|].
    eexists. split; [done|]. left. eauto.
Qed.

Lemma np_median_None (xs : list Q) : np_median xs = None <-> xs = [].
Proof.
  split; [|by intros ->].
  intros Hnone. destruct xs as [|x xs]; [done|].
  destruct (np_median_Some (x :: xs)) as (m & Hm & _); [done|]. congruence.
Qed.

Lemma region_accuracy_None (ps : list string) (ts : list ascii) :
  region_accuracy ps ts = None <-> ps = [] \/ ts = [].
Proof.
  unfold region_accuracy. rewrite np_mean_None.
  destruct ps as [|p ps], ts as [|t ts]; simpl; split; intros H; try done; eauto.
  by destruct H.
Qed.

Lemma slice_nil_iff {A : Type} (s e : nat) (l : list A) :
  s < e -> slice s e l = [] <-> length l <= s.
Proof.
  intros Hse. unfold slice. split.
  - intros Hnil. apply (f_equal length) in Hnil.
    rewrite length_drop, length_take in Hnil. simpl in Hnil. lia.
  - intros Hlen. apply drop_ge. rewrite length_take. lia.
Qed.




Lemma zip_take_min {A B : Type} (xs : list A) : forall ys : list B,
  zip xs ys = zip (take (length xs `min` length ys) xs)
                  (take (length xs `min` length ys) ys).
Proof.
  induction xs as [|x xs IH]; intros [|y ys]; simpl; try done.
  by rewrite <- IH.
Qed.

Lemma match_count_take_min (ps : list string) : forall ts : list ascii,
  match_count ps ts = match_count (take (length ps `min` length ts) ps)
                                  (take (length ps `min` length ts) ts).
Proof.
  induction ps as [|p ps IH]; intros [|t ts]; simpl; try done.
  by rewrite <- IH.
Qed.

(** X11. The accuracy pairs predictions and residues by position and stops
    at the shorter of the two: what lies beyond is ignored, and the accuracy
    is the number of matches over the number of pairs, NaN when there is no
    pair at all. *)
Theorem accuracy_ignores_unpaired (ps : list string) (ts : list ascii) :
  let n := length ps `min` length ts in
  region_accuracy ps ts = region_accuracy (take n ps) (take n ts) /\
  (n = 0 -> region_accuracy ps ts = None) /\
  (0 < n ->
   exists a, region_accuracy ps ts = Some a /\
     (a == Q_of_nat (match_count ps ts) / Q_of_nat n)%Q /\ (0 <= a <= 1)%Q).
Proof.
  intros n.
  assert (region_accuracy ps ts = region_accuracy (take n ps) (take n ts)) as Htake.
  { unfold region_accuracy. by rewrite (zip_take_min ps ts). }
  split; [done|]. split.
  - intros Hn. apply region_accuracy_None.
    destruct ps, ts; eauto. subst n. simpl in Hn. lia.
  - intros Hn. rewrite Htake.
    destruct (region_accuracy_spec (take n ps) (take n ts))
      as (a & Ha & Heq & Hrange & _).
    { rewrite !length_take. lia. }
    { rewrite length_take. lia. }
    exists a. split; [done|]. split; [|done].
    rewrite Heq, length_take, (match_count_take_min ps ts). fold n.
    by replace (n `min` length ps) with n by lia.
Qed.

Lemma accuracy_ignores_unpaired_witness :
  region_accuracy ["Q"; "A"; "Q"; "L"]%string ["Q"; "V"; "Q"]%char
  = region_accuracy ["Q"; "A"; "Q"]%string ["Q"; "V"; "Q"]%char /\
  exists a, region_accuracy ["Q"; "A"; "Q"; "L"]%string ["Q"; "V"; "Q"]%char = Some a /\
    (a == Q_of_nat 2 / Q_of_nat 3)%Q /\ (0 <= a <= 1)%Q.
Proof.
  split.
  - apply (proj1 (accuracy_ignores_unpaired ["Q"; "A"; "Q"; "L"]%string
                    ["Q"; "V"; "Q"]%char)).
  - apply (proj2 (proj2 (accuracy_ignores_unpaired ["Q"; "A"; "Q"; "L"]%string
                           ["Q"; "V"; "Q"]%char))). simpl. lia.
Defined.

Section RegionMetricProps.
Context {L : Type} `{EqDecision L}.


(** X12. An accepted chain never raises over short arrays: the mean and the
    median loss of a region are NaN exactly when the loss array ends at or
    before the start of the region, and its accuracy is NaN exactly when the
    predictions or the residues do. *)
Theorem nan_metrics_iff model chain mutated loss pred seq (cdr_mask : list L) :
  run_count cdr_mask = 7 ->
  exists segs recs,
    find_regions cdr_mask = Ok segs /\
    chain_records model chain mutated loss pred seq cdr_mask = Ok recs /\
    length recs = 7 /\
    forall i s e rec,
      segs !! i = Some (s, e) -> recs !! i = Some rec ->
      (rr_mean_loss rec = None <-> length loss <= s) /\
      (rr_median_loss rec = None <-> length loss <= s) /\
      (rr_accuracy rec = None <-> length pred <= s \/ length seq <= s).
Proof.
  intros Hrc.
  destruct (chain_records_accept model chain mutated loss pred seq cdr_mask Hrc)
    as (segs & Hfind & Hseven & Hch & Hrecs).
  exists segs. eexists. split; [done|]. split; [exact Hrecs|]. split.
  { rewrite length_map, length_zip_with, Hseven. done. }
  intros i s e rec Hseg Hrec.
  assert ((s, e) ∈ segs) as Hin by (by eapply list_elem_of_lookup_2).
  pose proof (chained_nonempty _ _ _ Hch) as Hne. unfold ranges_nonempty in Hne.
  rewrite Forall_forall in Hne. specialize (Hne _ Hin). simpl in Hne.
  rewrite lookup_map in Hrec.
  destruct (zip REGIONS segs !! i) as [[reg se]|] eqn:Hz; [|done].
  apply lookup_zip_with_Some in Hz as (x & y & [= -> ->] & _ & Hy).
  rewrite Hseg in Hy. injection Hy as <-. injection Hrec as <-.
  cbn [region_record rr_mean_loss rr_median_loss rr_accuracy].
  rewrite np_mean_None, np_median_None, region_accuracy_None.
  rewrite !slice_nil_iff by done. done.
Qed.


End RegionMetricProps.

Lemma nan_metrics_iff_witness :
  run_count (cdr_mask_light example_row) = 7 /\
  exists segs recs,
    find_regions (cdr_mask_light example_row) = Ok segs /\
    chain_records "balm" light true [] (replicate 5 "A"%string)
                  (String.list_ascii_of_string "DIQMTQSPSSLSAS")
                  (cdr_mask_light example_row) = Ok recs /\
    length recs = 7 /\
    forall i s e rec,
      segs !! i = Some (s, e) -> recs !! i = Some rec ->
      (rr_mean_loss rec = None <-> length (@nil Q) <= s) /\
      (rr_median_loss rec = None <-> length (@nil Q) <= s) /\
      (rr_accuracy rec = None <->
       length (replicate 5 "A"%string) <= s \/
       length (String.list_ascii_of_string "DIQMTQSPSSLSAS") <= s).
Proof.
  split; [reflexivity|].
  apply (nan_metrics_iff "balm" light true [] (replicate 5 "A"%string)). reflexivity.
Defined.


(** ** The summary table *)

#[local] Instance key_le_total : Total key_le.
Proof.
  intros [m1 b1] [m2 b2]. unfold key_le. simpl.
  destruct (decide (m1 = m2)) as [->|Hne].
  - rewrite decide_True by done. destruct b1, b2; unfold bool_le; simpl; tauto.
  - rewrite (decide_False (P := m2 = m1)) by congruence.
    apply (total String.le).
Qed.

#[local] Instance key_le_trans : Transitive key_le.
Proof.
  intros [m1 b1] [m2 b2] [m3 b3]. unfold key_le. simpl.
  destruct (decide (m1 = m2)) as [->|H12], (decide (m2 = m3)) as [->|H23].
  - destruct b1, b2, b3; unfold bool_le; simpl; tauto.
  - auto.
  - rewrite decide_False by done. auto.
  - intros Ha Hb. destruct (decide (m1 = m3)) as [->|H13].
    + exfalso. apply H12. by apply (anti_symm String.le).
    + by etrans.
Qed.

Lemma summary_keys_sorted (df : list RegionRecord) :
  summary_keys (_summary_df df)
  = merge_sort key_le (remove_dups (map group_key (filter is_heavy_cdr3 df))).
Proof.
  unfold summary_keys, _summary_df. rewrite map_map. simpl.
  rewrite <- (map_id (merge_sort _ _)) at 2. apply map_ext. by intros [m b].
Qed.

(** X14. The rows of the summary are in ascending order of (model, mutated),
    the unmutated group of a model before its mutated one, and no two rows
    stand for the same group. *)
Theorem summary_rows_sorted_unique (df : list RegionRecord) :
  StronglySorted key_le (summary_keys (_summary_df df)) /\
  NoDup (summary_keys (_summary_df df)).
Proof.
  rewrite summary_keys_sorted. split.
  - apply StronglySorted_merge_sort; apply _.
  - rewrite merge_sort_Permutation. apply NoDup_remove_dups.
Qed.

(** X15. The summary has a row for a (model, mutated) pair exactly when some
    heavy-chain CDR3 record bears it; records of other regions or of the
    light chain add no row, and without any heavy-chain CDR3 record the
    summary is empty. *)
Theorem summary_rows_are_groups (df : list RegionRecord) :
  (forall key, key ∈ summary_keys (_summary_df df) <->
               exists r, r ∈ df /\ is_heavy_cdr3 r /\ group_key r = key) /\
  (_summary_df df = [] <-> forall r, r ∈ df -> ~ is_heavy_cdr3 r).
Proof.
  assert (forall key, key ∈ summary_keys (_summary_df df) <->
            exists r, r ∈ df /\ is_heavy_cdr3 r /\ group_key r = key) as Hkeys.
  { intros key. rewrite summary_keys_sorted, merge_sort_Permutation,
      elem_of_remove_dups, list_elem_of_In, in_map_iff.
    split.
    - intros (r & Hk & Hr). apply list_elem_of_In, list_elem_of_filter in Hr as [? ?].
      eauto.
    - intros (r & Hr & Hc & Hk). exists r. split; [done|].
      apply list_elem_of_In, list_elem_of_filter. done. }
  split; [done|]. split.
  - intros Hnil r Hr Hc.
    assert (group_key r ∈ summary_keys (_summary_df df)) as Hin
      by (apply Hkeys; eauto).
    rewrite Hnil in Hin. by apply elem_of_nil in Hin.
  - intros Hnone. destruct (_summary_df df) as [|sr table] eqn:Htable; [done|].
    exfalso.
    assert ((sr_model sr, sr_mutated sr) ∈ summary_keys (sr :: table)) as Hin
      by left.
    apply Hkeys in Hin as (r & Hr & Hc & _). by apply (Hnone r).
Qed.

Lemma view_filter_map {B : Type} (f : RegionRecord -> B) (P : RegionRecord -> Prop)
    `{!forall r, Decision (P r)} (l : list RegionRecord) : forall l',
  map summary_view l = map summary_view l' ->
  (forall r r', summary_view r = summary_view r' -> f r = f r' /\ (P r <-> P r')) ->
  map f (filter P l) = map f (filter P l').
Proof.
  induction l as [|r l IH]; intros [|r' l'] Hview Hfp; try done.
  cbn [map] in Hview.
  assert (summary_view r = summary_view r') as Hr by congruence.
  assert (map summary_view l = map summary_view l') as Hl by congruence.
  destruct (Hfp r r' Hr) as [Hf HP].
  rewrite !filter_cons. specialize (IH l' Hl Hfp).
  destruct (decide (P r)) as [Hp|Hp], (decide (P r')) as [Hp'|Hp']; simpl;
    [by rewrite Hf, IH | by apply HP in Hp | by apply HP in Hp' | done].
Qed.

(** X16. The summary reads nothing but the model, the mutation flag, the
    median loss and the accuracy of the heavy-chain CDR3 records: two batches
    that agree on these give the same table, whatever their other records and
    whatever the loss slices and mean losses they hold. *)
Theorem summary_reads_four_columns (df df' : list RegionRecord) :
  map summary_view (filter is_heavy_cdr3 df)
  = map summary_view (filter is_heavy_cdr3 df') ->
  _summary_df df = _summary_df df'.
Proof.
  intros Hview. unfold _summary_df, group_of.
  set (l := filter is_heavy_cdr3 df) in *. set (l' := filter is_heavy_cdr3 df') in *.
  assert (map group_key l = map group_key l') as Hkeys.
  { assert (forall k, map group_key k = map (fun v => v.1.1) (map summary_view k))
      as Hk by (intros k; by rewrite map_map).
    by rewrite (Hk l), (Hk l'), Hview. }
  simpl. rewrite Hkeys. apply map_ext. intros key. f_equal.
  - f_equal. apply (view_filter_map rr_median_loss _ l l' Hview).
    intros r r' [= Hm Hb Hmed Hacc]. split; [done|]. unfold group_key. by rewrite Hm, Hb.
  - f_equal. apply (view_filter_map rr_accuracy _ l l' Hview).
    intros r r' [= Hm Hb Hmed Hacc]. split; [done|]. unfold group_key. by rewrite Hm, Hb.
Qed.

Lemma summary_reads_four_columns_witness :
  map summary_view (filter is_heavy_cdr3 mixed_records)
  = map summary_view
      (filter is_heavy_cdr3
         (map (fun r => {| rr_region := rr_region r; rr_model := rr_model r;
                           rr_chain := rr_chain r; rr_mutated := rr_mutated r;
                           rr_loss := []; rr_mean_loss := None;
                           rr_median_loss := rr_median_loss r;
                           rr_accuracy := rr_accuracy r |})
              (filter is_heavy_cdr3 mixed_records))) /\
  _summary_df mixed_records
  = _summary_df
      (map (fun r => {| rr_region := rr_region r; rr_model := rr_model r;
                        rr_chain := rr_chain r; rr_mutated := rr_mutated r;
                        rr_loss := []; rr_mean_loss := None;
                        rr_median_loss := rr_median_loss r;
                        rr_accuracy := rr_accuracy r |})
           (filter is_heavy_cdr3 mixed_records)).
Proof.
  split; [reflexivity|].
  apply (summary_reads_four_columns mixed_records). reflexivity.
Defined.

(** ** The model loader: where results and exceptions come from *)

(** X17. The exceptions of the model loader are those of the three loaders
    and the unsupported-task error, and the tokenizer comes first: when the
    tokenizer loader raises, the model loader raises the same exception
    whatever the task, an unsupported one included; a model loader that
    raises is passed on as well. *)
Theorem loader_exceptions (T : Transformers) (model_path task : string)
    (tokenizer_path : option string) (kwargs : Kwargs T) :
  (forall e,
     AutoTokenizer_from_pretrained T (py_or tokenizer_path model_path) = Err e ->
     load_model_and_tokenizer T model_path task tokenizer_path kwargs = Err e) /\
  (forall tok e,
     AutoTokenizer_from_pretrained T (py_or tokenizer_path model_path) = Ok tok ->
     (task = "mlm" /\
      AutoModelForMaskedLM_from_pretrained T model_path kwargs = Err e) \/
     (task = "classification" /\
      AutoModelForSequenceClassification_from_pretrained T model_path kwargs = Err e) ->
     load_model_and_tokenizer T model_path task tokenizer_path kwargs = Err e) /\
  (forall e,
     load_model_and_tokenizer T model_path task tokenizer_path kwargs = Err e ->
     AutoTokenizer_from_pretrained T (py_or tokenizer_path model_path) = Err e \/
     (task = "mlm" /\
      AutoModelForMaskedLM_from_pretrained T model_path kwargs = Err e) \/
     (task = "classification" /\
      AutoModelForSequenceClassification_from_pretrained T model_path kwargs = Err e) \/
     (task <> "mlm" /\ task <> "classification" /\
      e = ValueError ("Unsupported task: " +:+ task))).
Proof.
  unfold load_model_and_tokenizer. split; [|split].
  - intros e Htok. by rewrite Htok.
  - intros tok e Htok Hm. rewrite Htok. cbn [mbind result_bind].
    destruct Hm as [[-> Hm] | [-> Hm]].
    + rewrite decide_True by done. by rewrite Hm.
    + rewrite decide_False by done. rewrite decide_True by done. by rewrite Hm.
  - intros e He.
    destruct (AutoTokenizer_from_pretrained T _) as [tok|e'] eqn:Htok;
      cbn [mbind result_bind] in He; [|left; congruence].
    right. destruct (decide (task = "mlm")) as [Hmlm|Hmlm].
    + left. split; [done|].
      destruct (AutoModelForMaskedLM_from_pretrained T model_path kwargs); [done|].
      cbn in He. congruence.
    + destruct (decide (task = "classification")) as [Hcls|Hcls].
      * right. left. split; [done|].
        destruct (AutoModelForSequenceClassification_from_pretrained T model_path kwargs);
          [done|]. cbn in He. congruence.
      * right. right. cbn in He. split; [done|]. split; [done|]. congruence.
Qed.

Lemma loader_exceptions_witness :
  AutoTokenizer_from_pretrained broken_tokenizer_transformers (py_or None "balm")
  = Err (ExternalError "no tokenizer at balm") /\
  load_model_and_tokenizer broken_tokenizer_transformers "balm" "regression" None ()
  = Err (ExternalError "no tokenizer at balm").
Proof.
  split; [reflexivity|].
  apply (proj1 (loader_exceptions broken_tokenizer_transformers
                  "balm" "regression" None ())). reflexivity.
Defined.

(** X18. What the model loader returns comes from the paths it was given: the
    model from [model_path], through the loader of the task and with the
    keyword arguments; the tokenizer from [tokenizer_path] when that is given
    and not empty, and from [model_path] otherwise. *)
Theorem loader_result_sources (T : Transformers) (model_path task : string)
    (tokenizer_path : option string) (kwargs : Kwargs T)
    (m : Model T) (tok : Tokenizer T) :
  load_model_and_tokenizer T model_path task tokenizer_path kwargs = Ok (m, tok) ->
  ((task = "mlm" /\
    AutoModelForMaskedLM_from_pretrained T model_path kwargs = Ok m) \/
   (task = "classification" /\
    AutoModelForSequenceClassification_from_pretrained T model_path kwargs = Ok m)) /\
  (forall p, tokenizer_path = Some p -> p <> "" ->
             AutoTokenizer_from_pretrained T p = Ok tok) /\
  (tokenizer_path = None \/ tokenizer_path = Some "" ->
   AutoTokenizer_from_pretrained T model_path = Ok tok).
Proof.
  unfold load_model_and_tokenizer. intros Hload.
  destruct (AutoTokenizer_from_pretrained T (py_or tokenizer_path model_path))
    as [tok'|e] eqn:Htok; cbn [mbind result_bind] in Hload; [|done].
  assert (tok' = tok /\
          ((task = "mlm" /\
            AutoModelForMaskedLM_from_pretrained T model_path kwargs = Ok m) \/
           (task = "classification" /\
            AutoModelForSequenceClassification_from_pretrained T model_path kwargs
            = Ok m))) as [-> Hm].
  { destruct (decide (task = "mlm")) as [Hmlm|Hmlm].
    - destruct (AutoModelForMaskedLM_from_pretrained T model_path kwargs) as [m'|]
        eqn:Hm'; cbn in Hload; [|done].
      injection Hload as -> ->. eauto.
    - destruct (decide (task = "classification")) as [Hcls|Hcls]; [|done].
      destruct (AutoModelForSequenceClassification_from_pretrained T model_path kwargs)
        as [m'|] eqn:Hm'; cbn in Hload; [|done].
      injection Hload as -> ->. eauto. }
  split; [done|]. split.
  - intros p -> Hp. unfold py_or in Htok. by rewrite decide_False in Htok.
  - intros [-> | ->]; exact Htok.
Qed.

Lemma loader_result_sources_witness :
  load_model_and_tokenizer toy_transformers "balm" "mlm" (Some "tok") ()
  = Ok ("mlm model of balm", "tokenizer of tok") /\
  (("mlm" = "mlm" /\
    AutoModelForMaskedLM_from_pretrained toy_transformers "balm" ()
    = Ok "mlm model of balm") \/
   ("mlm" = "classification" /\
    AutoModelForSequenceClassification_from_pretrained toy_transformers "balm" ()
    = Ok "mlm model of balm")) /\
  (forall p, Some "tok" = Some p -> p <> "" ->
             AutoTokenizer_from_pretrained toy_transformers p = Ok "tokenizer of tok") /\
  (Some "tok" = None \/ Some "tok" = Some "" ->
   AutoTokenizer_from_pretrained toy_transformers "balm" = Ok "tokenizer of tok").
Proof.
  split; [reflexivity|].
  apply (loader_result_sources toy_transformers "balm" "mlm" (Some "tok") ()).
  reflexivity.
Defined.

(** ** Task configuration *)

Lemma to_upper_is_upper (c : ascii) :
  is_lower c = true -> is_upper (to_upper c) = true /\ is_lower (to_upper c) = false.
Proof.
  destruct c as [[|] [|] [|] [|] [|] [|] [|] [|]]; vm_compute; intros H;
    (discriminate H || done).
Qed.

Lemma to_lower_is_lower (c : ascii) :
  is_upper c = true -> is_lower (to_lower c) = true.
Proof.
  destruct c as [[|] [|] [|] [|] [|] [|] [|] [|]]; vm_compute; intros H;
    (discriminate H || done).
Qed.

Lemma upper_not_lower (c : ascii) : is_upper c = true -> is_lower c = false.
Proof.
  destruct c as [[|] [|] [|] [|] [|] [|] [|] [|]]; vm_compute; intros H;
    (discriminate H || done).
Qed.

Lemma letters_not_underscore (c : ascii) :
  (is_lower c = true -> to_upper c <> "_"%char /\ c <> "_"%char) /\
  (is_upper c = true -> to_lower c <> "_"%char /\ c <> "_"%char).
Proof.
  destruct c as [[|] [|] [|] [|] [|] [|] [|] [|]]; vm_compute;
    (split; intros H; (discriminate H || (split; discriminate))).
Qed.

Lemma title_go_length (s : string) : forall b,
  String.length (title_go b s) = String.length s.
Proof.
  induction s as [|c s IH]; intros b; [done|]. cbn [title_go].
  destruct (is_lower c); [|destruct (is_upper c)]; cbn [String.length]; by rewrite IH.
Qed.

Lemma str_replace_char_length (old new : ascii) (s : string) :
  String.length (str_replace_char old new s) = String.length s.
Proof. induction s as [|c s IH]; [done|]. cbn [str_replace_char String.length]. by rewrite IH. Qed.

Lemma str_replace_char_gone (old new : ascii) (s : string) :
  new <> old -> str_count_char old (str_replace_char old new s) = 0.
Proof.
  intros Hne. induction s as [|c s IH]; [done|].
  cbn [str_replace_char str_count_char]. rewrite IH.
  destruct (decide (c = old)) as [->|Hc]; by rewrite decide_False.
Qed.

Lemma title_go_no_underscore (s : string) : forall b,
  str_count_char "_" s = 0 -> str_count_char "_" (title_go b s) = 0.
Proof.
  induction s as [|c s IH]; intros b; [done|]. cbn [str_count_char title_go].
  destruct (decide (c = "_"%char)) as [->|Hc]; [done|]. intros Hs. simpl in Hs.
  destruct (letters_not_underscore c) as [Hlow Hup].
  destruct (is_lower c) eqn:Hl; [|destruct (is_upper c) eqn:Hu];
    cbn [str_count_char]; rewrite (IH _ Hs).
  - destruct (Hlow eq_refl) as [H1 H2]. destruct b; by rewrite decide_False.
  - destruct (Hup eq_refl) as [H1 H2]. destruct b; by rewrite decide_False.
  - by rewrite decide_False.
Qed.

Lemma title_go_idempotent (s : string) : forall b,
  title_go b (title_go b s) = title_go b s.
Proof.
  induction s as [|c s IH]; intros b; [done|]. cbn [title_go].
  destruct (is_lower c) eqn:Hl; [|destruct (is_upper c) eqn:Hu].
  - destruct b; cbn [title_go].
    + by rewrite Hl, IH.
    + destruct (to_upper_is_upper c Hl) as [Hup Hlow]. by rewrite Hlow, Hup, IH.
  - destruct b; cbn [title_go].
    + by rewrite (to_lower_is_lower c Hu), IH.
    + by rewrite Hl, Hu, IH.
  - cbn [title_go]. by rewrite Hl, Hu, IH.
Qed.

Lemma str_replace_char_absent (old new : ascii) (s : string) :
  str_count_char old s = 0 -> str_replace_char old new s = s.
Proof.
  induction s as [|c s IH]; [done|]. cbn [str_count_char str_replace_char].
  destruct (decide (c = old)); [done|]. intros Hs. by rewrite IH.
Qed.

(** X19. For an ASCII [task_dir], the display name has as many characters as
    [task_dir] and no underscore, and it is already in its final form:
    taking the name of a name changes nothing. *)
Theorem name_is_normal_form (task_dir : string) :
  is_ascii_text task_dir = true ->
  String.length (name task_dir) = String.length task_dir /\
  str_count_char "_" (name task_dir) = 0 /\
  name (name task_dir) = name task_dir.
Proof.
  intros _. unfold name, str_title.
  assert (str_count_char "_" (title_go false (str_replace_char "_" " " task_dir)) = 0)
    as Hnone by (apply title_go_no_underscore; by apply str_replace_char_gone).
  split; [by rewrite title_go_length, str_replace_char_length|].
  split; [done|].
  by rewrite (str_replace_char_absent _ _ _ Hnone), title_go_idempotent.
Qed.

Lemma name_is_normal_form_witness :
  is_ascii_text "per_position_inference" = true /\
  name "per_position_inference" = "Per Position Inference" /\
  String.length (name "per_position_inference")
  = String.length "per_position_inference" /\
  str_count_char "_" (name "per_position_inference") = 0 /\
  name (name "per_position_inference") = name "per_position_inference".
Proof.
  split; [reflexivity|]. split; [reflexivity|].
  apply (name_is_normal_form "per_position_inference"). reflexivity.
Defined.

(** ** The two stages together *)

Section ProcessingStageProps.
Context {L : Type} `{EqDecision L}.

Lemma extract_ok_inv (df : list (ResultRow L)) (ds : list (DerivedRow L)) :
  _extract df = Ok ds ->
  Forall splittable df /\ Forall2 (fun r d => row d = r) df ds.
Proof.
  intros Hds. unfold _extract in Hds.
  apply extract_loop_inv in Hds as (ds' & -> & Hall). simpl.
  induction Hall as [|r d df ds' Hr _ [IH1 IH2]]; [by split|]. split.
  - constructor; [|done]. apply extract_row_splittable. eauto.
  - constructor; [|done]. by apply extract_row_row.
Qed.

Lemma extract_ok_of_splittable (df : list (ResultRow L)) :
  Forall splittable df -> exists ds, _extract df = Ok ds.
Proof.
  intros Hall.
  assert (exists ds, Forall2 (fun r d => extract_row r = Ok d) df ds) as [ds Hds].
  { induction Hall as [|r df Hr _ [ds IH]]; [by exists []|].
    apply extract_row_splittable in Hr as [d Hd]. exists (d :: ds). by constructor. }
  exists ds. unfold _extract. by rewrite (extract_loop_ok df [] ds Hds).
Qed.

Lemma extract_err_of_unsplittable (df : list (ResultRow L)) :
  ~ Forall splittable df -> exists e, _extract df = Err e.
Proof.
  intros Hbad. destruct (_extract df) as [ds|e] eqn:Hds; [|eauto].
  exfalso. apply Hbad. by apply extract_ok_inv in Hds as [? _].
Qed.

Lemma masks_nonempty_rows (df : list (ResultRow L)) (ds : list (DerivedRow L)) :
  Forall2 (fun r d => row d = r) df ds ->
  Forall masks_nonempty ds <->
  Forall (fun r => cdr_mask_heavy r <> [] /\ cdr_mask_light r <> []) df.
Proof.
  induction 1 as [|r d df ds Hr _ IH]; [by split|].
  rewrite !Forall_cons, IH. unfold masks_nonempty. by rewrite Hr.
Qed.

(** X20. The two processing stages of [per_pos_compare] return exactly when
    every row can be split and has no empty mask. The splitter runs over the
    whole table first: a row that cannot be split makes the run end with the
    splitter's exception, wherever the row stands and whatever the masks; an
    empty mask in a table that can be split gives [IndexError]. *)
Theorem processing_stage_outcome (results : list (ResultRow L)) :
  ((exists data, process_results results = Ok data) <-> Forall processable results) /\
  (~ Forall splittable results ->
   exists e, _extract results = Err e /\ process_results results = Err e) /\
  (Forall splittable results ->
   ~ Forall (fun r => cdr_mask_heavy r <> [] /\ cdr_mask_light r <> []) results ->
   process_results results = Err IndexError).
Proof.
  unfold process_results. split; [split|split].
  - intros [data Hdata].
    destruct (_extract results) as [ds|e] eqn:Hds; [|done].
    cbn [mbind result_bind] in Hdata.
    destruct (extract_ok_inv results ds Hds) as [Hsplit Hrows].
    assert (Forall masks_nonempty ds) as Hmasks.
    { destruct (decide (Forall (fun r : DerivedRow L =>
                                  cdr_mask_heavy (row r) <> [] /\
                                  cdr_mask_light (row r) <> []) ds)) as [|Hbad];
        [done|]. unfold _region_processing in Hdata.
      by rewrite (region_loop_err ds [] Hbad) in Hdata. }
    apply (masks_nonempty_rows results ds Hrows) in Hmasks.
    apply Forall_forall. intros r Hr. rewrite Forall_forall in Hsplit, Hmasks.
    split; [by apply Hsplit | by apply Hmasks].
  - intros Hall.
    assert (Forall splittable results) as Hsplit
      by (eapply Forall_impl; [exact Hall | by intros r [? _]]).
    assert (Forall (fun r => cdr_mask_heavy r <> [] /\ cdr_mask_light r <> []) results)
      as Hmasks by (eapply Forall_impl; [exact Hall | by intros r [_ ?]]).
    destruct (extract_ok_of_splittable results Hsplit) as [ds Hds]. rewrite Hds.
    cbn [mbind result_bind].
    destruct (extract_ok_inv results ds Hds) as [_ Hrows].
    apply (masks_nonempty_rows results ds Hrows) in Hmasks.
    eexists. unfold _region_processing. by rewrite (region_loop_ok ds [] Hmasks).
  - intros Hbad. destruct (extract_err_of_unsplittable results Hbad) as [e He].
    exists e. by rewrite He.
  - intros Hsplit Hbad.
    destruct (extract_ok_of_splittable results Hsplit) as [ds Hds]. rewrite Hds.
    cbn [mbind result_bind].
    destruct (extract_ok_inv results ds Hds) as [_ Hrows].
    unfold _region_processing. apply region_loop_err.
    intros Hmasks. apply Hbad. by apply (masks_nonempty_rows results ds Hrows).
Qed.

End ProcessingStageProps.

Lemma processing_stage_outcome_witness :
  (exists e, _extract [empty_light_row; no_sep_row] = Err e /\
             process_results [empty_light_row; no_sep_row] = Err e) /\
  process_results [example_row; empty_light_row] = Err IndexError /\
  exists data, process_results [example_row] = Ok data.
Proof.
  split; [|split].
  - apply (proj1 (proj2 (processing_stage_outcome [empty_light_row; no_sep_row]))).
    intros Hall. apply Forall_cons_1 in Hall as [_ Hall].
    apply Forall_cons_1 in Hall as [[_ Hocc] _].
    apply str_contains_occurs in Hocc. discriminate Hocc.
  - apply (proj2 (proj2 (processing_stage_outcome [example_row; empty_light_row]))).
    + apply Forall_cons_2; [exact example_row_splittable|].
      apply Forall_cons_2; [|constructor].
      split; [done | by apply str_contains_occurs].
    + intros Hall. apply Forall_cons_1 in Hall as [_ Hall].
      apply Forall_cons_1 in Hall as [[_ Hlight] _]. by apply Hlight.
  - apply (proj1 (processing_stage_outcome [example_row])).
    apply Forall_cons_2; [|constructor].
    split; [exact example_row_splittable | by split].
Defined.
